(** * go-stash: an in-process key/value store with expiring entries

    A shallow embedding of [stash.go], [events.go] and the option
    constructors of the package ([New], [LenLimit], [ExpireAfter],
    [GcPeriod], [CloneFrom], [OnEvent]), followed by the properties of the
    store proved over it.

    Conventions of the embedding:
    - [int], [int64] and [time.Duration] are [Z]; 64-bit wrap-around is
      written out with [wrap64] where the source computes on [int64];
    - an [interface{}] is a [value]: the static shape of the dynamic types the
      source switches on, plus [VOther] for every other dynamic type;
    - a method on [*stash] is an action of the monad [M], which threads the
      receiver, the wall clock, the goroutines spawned by [go c.events.fire]
      and run-time panics;
    - [map[string]*item] is a [gmap string item]. *)

From Stdlib Require Import ZArith List Lia Permutation.
From stdpp Require Import gmap strings list fin_maps.

Local Open Scope Z_scope.

(** ** Machine integers and package [time] *)

(** The value of an [int64] computation whose mathematical result is [z]. *)
Definition wrap64 (z : Z) : Z := (z + 2 ^ 63) mod 2 ^ 64 - 2 ^ 63.

Module time.

(** [time.Duration] is an [int64] count of nanoseconds. *)
Definition Duration := Z.
(** A [time.Time], as the number of nanoseconds since the Unix epoch. *)
Definition Time := Z.

Definition Nanosecond : Duration := 1.
Definition Millisecond : Duration := 1000000.
Definition Second : Duration := 1000000000.
Definition Minute : Duration := 60 * Second.

Definition Add (t : Time) (d : Duration) : Time := t + d.
(** [UnixNano] returns an [int64]. *)
Definition UnixNano (t : Time) : Z := wrap64 t.

End time.

(** ** Constants of the package *)

Definition NoLenLimit : Z := 0.
Definition NoExpire : time.Duration := -1.
Definition DefaultExpire : time.Duration := 0.
Definition DefaultCgPeriod : time.Duration := 5 * time.Minute.

(** [type Event int], numbered by [iota] in [events.go]. *)
Definition Event := Z.
Definition EventAny : Event := 0.
Definition EventGet : Event := 1.
Definition EventMiss : Event := 2.
Definition EventSet : Event := 3.
Definition EventUpdate : Event := 4.
Definition EventTouch : Event := 5.
Definition EventError : Event := 6.
Definition EventRemove : Event := 7.
Definition EventExpire : Event := 8.
Definition EventFlush : Event := 9.
Definition EventClean : Event := 10.

(** ** Data model *)

(** An [interface{}] as the store sees it. [VNil] is the nil interface;
    [VTimePtr None] is a nil [*time.Time], which is not the nil interface. *)
Inductive value : Type :=
| VNil
| VInt (n : Z) | VInt8 (n : Z) | VInt16 (n : Z) | VInt32 (n : Z) | VInt64 (n : Z)
| VUint (n : Z) | VUint8 (n : Z) | VUint16 (n : Z) | VUint32 (n : Z)
| VUint64 (n : Z)
| VDuration (d : time.Duration)
| VTime (t : time.Time)
| VTimePtr (p : option time.Time)
| VString (s : string)
| VOther (tag : nat).

(** [type item struct { Object interface{}; expire int64 }]. The field
    [expire] is called [deadline] here, [expire] being also a method. *)
Record item : Type := Item { Object : value; deadline : Z }.

(** What an event carries: an [interface{}] that is either a caller's value
    or, for [EventGet], the [*item] itself. *)
Inductive payload : Type :=
| PVal (v : value)
| PItem (it : item).

(** [type OnEventHandler func(Event, string, interface{})]: a callback is
    known by its identity. *)
Definition OnEventHandler := nat.

(** [type eventHandler struct { events []Event; handler; next *eventHandler }] *)
#[warnings="-register-all"] Inductive eventHandler : Type :=
  EventHandler {
    events : list Event;
    handler : OnEventHandler;
    next : option eventHandler
  }.

(** [type gc struct { Interval time.Duration; stop chan bool }] *)
Record gc : Type := Gc { Interval : time.Duration }.

(** [type stash struct]. The fields [events] and [gc] are called
    [observers] and [sweeper]; the mutex has no content. [sweeper] is [Some]
    exactly when [startGc] has launched the background loop. *)
Record stash : Type := Stash {
  expirePeriod : time.Duration;
  gcPeriod : time.Duration;
  lenLimit : Z;
  lenCurrent : Z;
  items : gmap string item;
  observers : option eventHandler;
  sweeper : option gc
}.

Definition set_items (m : gmap string item) (c : stash) : stash :=
  Stash (expirePeriod c) (gcPeriod c) (lenLimit c) (lenCurrent c) m
        (observers c) (sweeper c).
Definition set_lenCurrent (n : Z) (c : stash) : stash :=
  Stash (expirePeriod c) (gcPeriod c) (lenLimit c) n (items c)
        (observers c) (sweeper c).
Definition set_lenLimit (n : Z) (c : stash) : stash :=
  Stash (expirePeriod c) (gcPeriod c) n (lenCurrent c) (items c)
        (observers c) (sweeper c).
Definition set_expirePeriod (d : time.Duration) (c : stash) : stash :=
  Stash d (gcPeriod c) (lenLimit c) (lenCurrent c) (items c)
        (observers c) (sweeper c).
Definition set_gcPeriod (d : time.Duration) (c : stash) : stash :=
  Stash (expirePeriod c) d (lenLimit c) (lenCurrent c) (items c)
        (observers c) (sweeper c).
Definition set_observers (h : option eventHandler) (c : stash) : stash :=
  Stash (expirePeriod c) (gcPeriod c) (lenLimit c) (lenCurrent c) (items c)
        h (sweeper c).
Definition set_sweeper (j : option gc) (c : stash) : stash :=
  Stash (expirePeriod c) (gcPeriod c) (lenLimit c) (lenCurrent c) (items c)
        (observers c) j.

(** The builtin [len] on a map. *)
Definition len (m : gmap string item) : Z := Z.of_nat (size m).

(** ** The monad of store operations *)

(** One [go c.events.fire(event, key, val)]. *)
Record firing : Type := Firing { f_event : Event; f_key : string; f_val : payload }.

(** The receiver, the readings [time.Now] will return, how many it has
    returned, and the firings spawned so far (oldest first). *)
Record world : Type := World {
  self : stash;
  clock : nat -> time.Time;
  reads : nat;
  spawned : list firing
}.

Inductive result (A : Type) : Type :=
| Ok (a : A)
| Panic (why : string).
Arguments Ok {A} a.
Arguments Panic {A} why.

Definition M (A : Type) : Type := world -> result (A * world).

#[global] Instance M_ret : MRet M := fun A a w => Ok (a, w).
#[global] Instance M_bind : MBind M := fun A B f m w =>
  match m w with
  | Ok (a, w') => f a w'
  | Panic why => Panic why
  end.

Definition panic {A : Type} (why : string) : M A := fun _ => Panic why.

Definition get_self : M stash := fun w => Ok (self w, w).
Definition put_self (c : stash) : M unit := fun w =>
  Ok (tt, World c (clock w) (reads w) (spawned w)).

(** [time.Now()] *)
Definition time_Now : M time.Time := fun w =>
  Ok (clock w (reads w), World (self w) (clock w) (S (reads w)) (spawned w)).

(** [go c.events.fire(event, key, val)], its arguments already evaluated. *)
Definition go_fire (event : Event) (key : string) (val : payload) : M unit :=
  fun w => Ok (tt, World (self w) (clock w) (reads w)
                         (spawned w ++ [Firing event key val])).

(** [errors.New] *)
Definition error := string.

(** ** [toTime] and [resolveTime] *)

(** The type assertions [i.(int64)] and [i.(uint64)]: they panic unless the
    dynamic type is exactly the asserted one. *)
Definition assert_int64 (i : value) : M Z :=
  match i with
  | VInt64 n => mret n
  | _ => panic "interface conversion: interface {} is not int64"
  end.
Definition assert_uint64 (i : value) : M Z :=
  match i with
  | VUint64 n => mret n
  | _ => panic "interface conversion: interface {} is not uint64"
  end.

(** [toTime] calls itself on a [time.Time] from the [time.Duration] case and
    on a [time.Duration] from the integer cases; the three levels of the
    recursion are the three definitions below. *)
Definition toTime_Time (t : time.Time) : M Z := mret (time.UnixNano t).

Definition toTime_Duration (dur : time.Duration) : M Z :=
  if dur =? DefaultExpire then mret DefaultExpire
  else if dur =? NoExpire then mret NoExpire
  else now ← time_Now; toTime_Time (time.Add now dur).

Definition toTime (i : value) : M Z :=
  match i with
  | VNil => mret NoExpire
  | VInt _ | VInt8 _ | VInt16 _ | VInt32 _ | VInt64 _ =>
      n ← assert_int64 i; toTime_Duration (wrap64 (time.Second * wrap64 n))
  | VUint _ | VUint8 _ | VUint16 _ | VUint32 _ | VUint64 _ =>
      n ← assert_uint64 i; toTime_Duration (wrap64 (time.Second * wrap64 n))
  | VDuration dur => toTime_Duration dur
  | VTime t => toTime_Time t
  | VTimePtr (Some t) => mret (time.UnixNano t)
  | VTimePtr None => mret DefaultExpire
  | VString _ | VOther _ => mret DefaultExpire
  end.

Definition resolveTime (i : list value) : M (Z * option error) :=
  expire ← match i with
           | _ :: i1 :: _ => toTime i1
           | _ => mret 0
           end;
  expire ← (if expire =? DefaultExpire
            then c ← get_self; toTime (VDuration (expirePeriod c))
            else mret expire);
  if 0 <? expire
  then now ← time_Now;
       if expire <? time.UnixNano now
       then mret (expire, Some "expire time is in the past"%string)
       else mret (expire, None)
  else mret (expire, None).

(** ** The event chain *)

(** One [go h.handler(event, key, val)]. *)
Record call : Type := Call {
  callee : OnEventHandler;
  c_event : Event;
  c_key : string;
  c_val : payload
}.

(** The loop of [fire] over [h.events]: does some subscribed kind match? *)
Fixpoint subscribed (es : list Event) (event : Event) : bool :=
  match es with
  | [] => false
  | e :: es' => if (e =? EventAny) || (e =? event) then true
                else subscribed es' event
  end.

(** [(h *eventHandler) fire] on a non-nil receiver: the callbacks it
    launches, the ones of the rest of the chain first (the source spawns
    [h.next.fire] before it looks at its own kinds). *)
Fixpoint fire_link (h : eventHandler) (event : Event) (key : string)
    (val : payload) : list call :=
  match h with
  | EventHandler es hd nx =>
      match nx with
      | Some n => fire_link n event key val
      | None => []
      end ++
      (if subscribed es event then [Call hd event key val] else [])
  end.

(** [fire], nil receiver included. *)
Definition fire (h : option eventHandler) (event : Event) (key : string)
    (val : payload) : list call :=
  match h with
  | None => []
  | Some h' => fire_link h' event key val
  end.

(** The links of a chain, outermost (last registered) first. *)
Fixpoint links (h : eventHandler) : list eventHandler :=
  h :: match h with
       | EventHandler _ _ (Some n) => links n
       | EventHandler _ _ None => []
       end.

Definition chain (h : option eventHandler) : list eventHandler :=
  match h with
  | None => []
  | Some h' => links h'
  end.

(** ** Operations of the store *)

(** [o.Object] on an [o *item] that may be nil. *)
Definition deref_Object (o : option item) : M value :=
  match o with
  | Some it => mret (Object it)
  | None => panic "invalid memory address or nil pointer dereference"
  end.

(** [v == nil] on an [interface{}]. *)
Definition is_nil (v : value) : bool :=
  match v with
  | VNil => true
  | _ => false
  end.

(** [Set]; the name is reserved in Rocq. [i] is the variadic tail: the
    object, then the expiration specifier. *)
Definition Set_ (key : string) (i : list value) : M (option error) :=
  match i with
  | [] => mret (Some "object not provided"%string)
  | i0 :: _ =>
      if is_nil i0 then mret (Some "object not provided"%string) else
      c ← get_self;
      if (0 <? lenLimit c) && (lenLimit c <=? lenCurrent c)
      then mret (Some "len limit reached"%string)
      else
        r ← resolveTime i;
        match r with
        | (_, Some err) => mret (Some err)
        | (expire, None) =>
            c ← get_self;
            match items c !! key with
            | Some v =>
                _ ← put_self (set_items (<[key := Item i0 expire]> (items c)) c);
                _ ← go_fire EventUpdate key (PVal i0);
                mret None
            | None =>
                let m := <[key := Item i0 expire]> (items c) in
                _ ← put_self (set_lenCurrent (len m) (set_items m c));
                _ ← go_fire EventSet key (PVal i0);
                mret None
            end
        end
  end.

Definition Touch (key : string) (i : list value) : M (option error) :=
  r ← resolveTime i;
  match r with
  | (_, Some err) => mret (Some err)
  | (expire, None) =>
      c ← get_self;
      match items c !! key with
      | Some it =>
          _ ← put_self (set_items (<[key := Item (Object it) expire]> (items c)) c);
          _ ← go_fire EventTouch key (PVal (Object it));
          mret None
      | None => mret None
      end
  end.

(** [remove] returns the [*item] it found (nil when there is none) and
    whether it found one. *)
Definition remove (key : string) (event : Event) : M (option item * bool) :=
  c ← get_self;
  let o := items c !! key in
  _ ← match o with
      | Some _ =>
          let m := delete key (items c) in
          put_self (set_lenCurrent (len m) (set_items m c))
      | None => mret tt
      end;
  obj ← deref_Object o;
  _ ← go_fire event key (PVal obj);
  mret (o, bool_decide (is_Some o)).

Definition Remove (key : string) : M (option item * bool) :=
  remove key EventRemove.

Definition Get (key : string) : M (value * bool) :=
  c ← get_self;
  match items c !! key with
  | None =>
      _ ← go_fire EventMiss key (PVal VNil); mret (VNil, false)
  | Some it =>
      expired ← (if 0 <? deadline it
                 then now ← time_Now; mret (deadline it <? time.UnixNano now)
                 else mret false);
      if (expired : bool)
      then _ ← go_fire EventMiss key (PVal VNil); mret (VNil, false)
      else _ ← go_fire EventGet key (PItem it); mret (Object it, true)
  end.

Definition Len : M Z := c ← get_self; mret (lenCurrent c).

Definition Clean : M unit :=
  c ← get_self;
  _ ← put_self (set_lenCurrent (len ∅) (set_items ∅ c));
  go_fire EventClean EmptyString (PVal VNil).

(** The test [item.expire > 0 && item.expire < curTime] of the scan. *)
Definition is_expired (curTime : Z) (it : item) : bool :=
  (0 <? deadline it) && (deadline it <? curTime).

(** The keys the scan of [expire] collects, in the order the map is
    ranged over. *)
Definition expiredItems (curTime : Z) (m : gmap string item) : list string :=
  (filter (fun kv : string * item => is_expired curTime kv.2 = true)
          (map_to_list m)).*1.

(** The loop [for _, key := range removed { c.remove(key, event) }]. *)
Fixpoint remove_all (removed : list string) (event : Event) : M unit :=
  match removed with
  | [] => mret tt
  | key :: rest => _ ← remove key event; remove_all rest event
  end.

(** [expire]: the scan, then the removals, which the source runs in a
    goroutine of their own; here they run at once. *)
Definition expire (event : Event) : M unit :=
  now ← time_Now;
  c ← get_self;
  remove_all (expiredItems (time.UnixNano now) (items c)) event.

Definition Flush : M unit := expire EventFlush.

(** [GetString] formats a value that is not a string with
    [fmt.Sprintf("%v", v)]; the formatting verb belongs to package [fmt] and
    is a parameter here. *)
Section GetString.

Variable Sprintf_v : value -> string.

Definition GetString (key : string) : M (string * bool) :=
  r ← Get key;
  match r with
  | (_, false) => mret (EmptyString, false)
  | (VString s, true) => mret (s, true)
  | (v, true) => mret (Sprintf_v v, true)
  end.

End GetString.

(** ** Construction *)

Definition LenLimit (limit : Z) : stash -> stash := fun c =>
  if NoLenLimit <=? limit then set_lenLimit limit c else c.

Definition ExpireAfter (dur : time.Duration) : stash -> stash := fun c =>
  set_expirePeriod (if dur <? 0 then NoExpire else dur) c.

Definition GcPeriod (dur : time.Duration) : stash -> stash := fun c =>
  set_gcPeriod (if dur <? 10 * time.Millisecond then DefaultCgPeriod else dur) c.

(** [src] is a [*Stash] that may be nil. The loop re-creates every item of
    [src] in [c.items]. *)
Definition CloneFrom (src : option stash) : stash -> stash := fun c =>
  match src with
  | None => c
  | Some s =>
      let c1 := set_lenLimit (lenLimit s)
                  (set_gcPeriod (gcPeriod s)
                     (set_expirePeriod (expirePeriod s) c)) in
      let m := map_fold (fun k v acc => <[k := Item (Object v) (deadline v)]> acc)
                        (items c1) (items s) in
      set_lenCurrent (len m) (set_items m c1)
  end.

(** [handler] is a func value that may be nil. *)
Definition OnEvent (h : option OnEventHandler) (evs : list Event)
    : stash -> stash := fun c =>
  match h, evs with
  | None, _ | _, [] => c
  | Some hd, _ => set_observers (Some (EventHandler evs hd (observers c))) c
  end.

(** The functions a caller can pass to [New]: [stash] is unexported, so
    they are the ones the package's constructors return. *)
Inductive is_option : (stash -> stash) -> Prop :=
| opt_LenLimit limit : is_option (LenLimit limit)
| opt_ExpireAfter dur : is_option (ExpireAfter dur)
| opt_GcPeriod dur : is_option (GcPeriod dur)
| opt_CloneFrom src : is_option (CloneFrom src)
| opt_OnEvent h evs : is_option (OnEvent h evs).

(** [startGc]: the loop [gc.Run] is launched with the store's period. *)
Definition startGc (c : stash) : stash :=
  set_sweeper (Some (Gc (gcPeriod c))) c.

Definition New (opts : list (stash -> stash)) : stash :=
  let c := fold_left (fun c opt => opt c) opts
             (Stash DefaultExpire DefaultCgPeriod NoLenLimit 0 ∅ None None) in
  if 0 <? gcPeriod c then startGc c else c.

(** One tick of [gc.Run]. *)
Definition gc_tick : M unit := expire EventExpire.

(** ** Executions *)

(** The calls a client, or the sweeper, makes on a store. *)
Inductive op : Type :=
| OpSet (key : string) (i : list value)
| OpTouch (key : string) (i : list value)
| OpGet (key : string)
| OpRemove (key : string)
| OpLen
| OpClean
| OpFlush
| OpTick
| OpSweepRemove (key : string) (event : Event).

Definition run_op (o : op) : M unit :=
  match o with
  | OpSet key i => _ ← Set_ key i; mret tt
  | OpTouch key i => _ ← Touch key i; mret tt
  | OpGet key => _ ← Get key; mret tt
  | OpRemove key => _ ← Remove key; mret tt
  | OpLen => _ ← Len; mret tt
  | OpClean => Clean
  | OpFlush => Flush
  | OpTick => gc_tick
  | OpSweepRemove key event => _ ← remove key event; mret tt
  end.

Fixpoint run_ops (os : list op) : M unit :=
  match os with
  | [] => mret tt
  | o :: os' => _ ← run_op o; run_ops os'
  end.

(** A store in a world whose clock reads [clk]. *)
Definition boot (c : stash) (clk : nat -> time.Time) : world := World c clk 0%nat [].

(** The live-count agrees with the mapping. *)
Definition consistent (c : stash) : Prop := lenCurrent c = len (items c).

(** The instant the clock returned at its latest reading. *)
Definition last_reading (w : world) : Z :=
  time.UnixNano (clock w (pred (reads w))).

(** ** Vocabulary of the properties *)

(** An action is [readonly] when it leaves the receiver and the spawned
    firings alone; it may read the clock. *)
Definition readonly {A : Type} (m : M A) : Prop :=
  forall w a w', m w = Ok (a, w') ->
    self w' = self w /\ spawned w' = spawned w /\ clock w' = clock w /\
    (reads w <= reads w')%nat.

(** The dynamic types [toTime] resolves: the nil interface, [int64],
    [uint64], [time.Duration], [time.Time], [*time.Time] and the types its
    switch does not list. *)
Definition resolvable (i : value) : bool :=
  match i with
  | VInt _ | VInt8 _ | VInt16 _ | VInt32 _ => false
  | VUint _ | VUint8 _ | VUint16 _ | VUint32 _ => false
  | _ => true
  end.

(** A link wants an event when its kinds hold the event's kind or the
    wildcard. *)
Definition wants (event : Event) (h : eventHandler) : Prop :=
  event ∈ events h \/ EventAny ∈ events h.

#[global] Instance wants_dec event h : Decision (wants event h).
Proof. unfold wants. apply _. Defined.

(** The reading of the specification: the result of [Touch] tells an absent
    key from a touched one. *)
Definition Touch_reports_absence : Prop :=
  forall w key key' i r r' w1 w2,
    items (self w) !! key = None ->
    is_Some (items (self w) !! key') ->
    Touch key i w = Ok (r, w1) ->
    Touch key' i w = Ok (r', w2) ->
    r <> r'.

(** The reading of the specification: a non-positive interval gives a store
    without sweeper. *)
Definition nonpositive_interval_disables_sweeper : Prop :=
  forall dur, dur <= 0 -> sweeper (New [GcPeriod dur]) = None.

(** ** Sample stores and executions *)

(** A store without sweeper that holds one entry, expired for the clock. *)
Definition stale_store : stash :=
  Stash DefaultExpire 0 NoLenLimit 1 {[ "k"%string := Item (VString "v") 5 ]}
        None None.

(** The store after [New(LenLimit(1))] and [Set("a", "x")], at a clock
    that always reads 1000. *)
Definition full_world : world :=
  World (Stash DefaultExpire DefaultCgPeriod 1 1
           {[ "a"%string := Item (VString "x") 0 ]} None
           (Some (Gc DefaultCgPeriod)))
        (fun _ => 1000) 0%nat [Firing EventSet "a" (PVal (VString "x"))].

(** An execution in which an entry expires, is missed by [Get], is swept
    by a tick, and another entry is removed by hand. *)
Definition demo_opts : list (stash -> stash) :=
  [LenLimit 3; GcPeriod (50 * time.Millisecond);
   ExpireAfter (30 * time.Second); OnEvent (Some 1%nat) [EventAny]].
Definition demo_clock : nat -> time.Time :=
  fun n => if (n <? 3)%nat then 1000 else 5000.
Definition demo_ops : list op :=
  [OpSet "key-0" [VString "000"; VDuration NoExpire];
   OpSet "key-1" [VString "str"];
   OpSet "key-2" [VInt64 12; VTime 3000];
   OpGet "key-2"; OpLen; OpTick; OpRemove "key-0"; OpTouch "key-1" []].
Definition demo_final : world :=
  Eval vm_compute in
    match run_ops demo_ops (boot (New demo_opts) demo_clock) with
    | Ok (_, w) => w
    | Panic _ => boot (New demo_opts) demo_clock
    end.

(** ** Names of events, and the statistics sink *)

(** [(e Event) String()]: [EventError] and [EventClean] have no case. *)
Definition Event_String (e : Event) : string :=
  if e =? EventAny then "*"
  else if e =? EventGet then "GET"
  else if e =? EventMiss then "MISS"
  else if e =? EventSet then "SET"
  else if e =? EventUpdate then "UPDATE"
  else if e =? EventTouch then "TOUCH"
  else if e =? EventRemove then "REMOVE"
  else if e =? EventExpire then "EXPIRE"
  else if e =? EventFlush then "FLUSH"
  else "[UNDEFINED]".

(** [type Stats struct]: nine [atomic.Uint64] counters. *)
Record Stats : Type := MkStats {
  gets : Z;
  misses : Z;
  sets : Z;
  updates : Z;
  touches : Z;
  errors : Z;
  removes : Z;
  expires : Z;
  flushes : Z
}.

(** [atomic.Uint64.Add(1)]: the sum wraps around at 64 bits. *)
Definition Add1 (v : Z) : Z := (v + 1) mod 2 ^ 64.

(** [(i *Stats) EventHandler]: the switch has no case for [EventAny] and
    [EventClean], nor for a kind that is not of the package. *)
Definition Stats_EventHandler (i : Stats) (event : Event) (key : string)
    (obj : payload) : Stats :=
  if event =? EventGet then
    MkStats (Add1 (gets i)) (misses i) (sets i) (updates i) (touches i)
            (errors i) (removes i) (expires i) (flushes i)
  else if event =? EventMiss then
    MkStats (gets i) (Add1 (misses i)) (sets i) (updates i) (touches i)
            (errors i) (removes i) (expires i) (flushes i)
  else if event =? EventSet then
    MkStats (gets i) (misses i) (Add1 (sets i)) (updates i) (touches i)
            (errors i) (removes i) (expires i) (flushes i)
  else if event =? EventUpdate then
    MkStats (gets i) (misses i) (sets i) (Add1 (updates i)) (touches i)
            (errors i) (removes i) (expires i) (flushes i)
  else if event =? EventTouch then
    MkStats (gets i) (misses i) (sets i) (updates i) (Add1 (touches i))
            (errors i) (removes i) (expires i) (flushes i)
  else if event =? EventError then
    MkStats (gets i) (misses i) (sets i) (updates i) (touches i)
            (Add1 (errors i)) (removes i) (expires i) (flushes i)
  else if event =? EventRemove then
    MkStats (gets i) (misses i) (sets i) (updates i) (touches i)
            (errors i) (Add1 (removes i)) (expires i) (flushes i)
  else if event =? EventExpire then
    MkStats (gets i) (misses i) (sets i) (updates i) (touches i)
            (errors i) (removes i) (Add1 (expires i)) (flushes i)
  else if event =? EventFlush then
    MkStats (gets i) (misses i) (sets i) (updates i) (touches i)
            (errors i) (removes i) (expires i) (Add1 (flushes i))
  else i.

(** The zero value [new(stash.Stats)]. *)
Definition Stats_zero : Stats := MkStats 0 0 0 0 0 0 0 0 0.

(** [(i *Stats) String()]. [strconv.FormatUint(v, 10)] belongs to package
    [strconv] and is a parameter; [strings.Join] is written out. *)
Section Stats_String.

Variable FormatUint10 : Z -> string.

Definition part (label : string) (v : Z) : list string :=
  if 0 <? v then [label; FormatUint10 v] else [].

Fixpoint Join (elems : list string) (sep : string) : string :=
  match elems with
  | [] => EmptyString
  | [e] => e
  | e :: rest => e ++ sep ++ Join rest sep
  end.

Definition Stats_String (i : Stats) : string :=
  Join (part "get:" (gets i) ++ part "miss:" (misses i) ++
        part "set:" (sets i) ++ part "update:" (updates i) ++
        part "touch:" (touches i) ++ part "errors:" (errors i) ++
        part "remove:" (removes i) ++ part "expire:" (expires i) ++
        part "flush:" (flushes i)) " ".

End Stats_String.

(** The callbacks a list of firings launches on a chain, and what they do
    to a [Stats] whose [EventHandler] is the callback [id]. The counters are
    atomic and each callback adds to one of them, so the order the
    goroutines run in does not show. *)
Definition delivered (h : option eventHandler) (fs : list firing) : list call :=
  flat_map (fun f => fire h (f_event f) (f_key f) (f_val f)) fs.

Definition Stats_consume (id : OnEventHandler) (cs : list call) (i : Stats)
    : Stats :=
  fold_left (fun i c => if Nat.eqb (callee c) id
                        then Stats_EventHandler i (c_event c) (c_key c) (c_val c)
                        else i) cs i.

(** ** More vocabulary *)

(** The configuration of a store: what the options set. *)
Definition config (c : stash)
    : time.Duration * time.Duration * Z * option eventHandler * option gc :=
  (expirePeriod c, gcPeriod c, lenLimit c, observers c, sweeper c).


(** An entry that the test of [Get] and of the scan lets through at the
    instant [now]. *)
Definition live (now : Z) (it : item) : Prop :=
  deadline it <= 0 \/ now <= deadline it.

(** The kinds an operation can fire. *)
Definition op_kinds (o : op) : list Event :=
  match o with
  | OpSet _ _ => [EventSet; EventUpdate]
  | OpTouch _ _ => [EventTouch]
  | OpGet _ => [EventGet; EventMiss]
  | OpRemove _ => [EventRemove]
  | OpLen => []
  | OpClean => [EventClean]
  | OpFlush => [EventFlush]
  | OpTick => [EventExpire]
  | OpSweepRemove _ event => [event]
  end.

(** The calls of the public interface and the ticks of the sweeper. *)
Definition public_op (o : op) : bool :=
  match o with
  | OpSweepRemove _ _ => false
  | _ => true
  end.

Definition is_OpGet (o : op) : bool :=
  match o with
  | OpGet _ => true
  | _ => false
  end.

(** The options whose source store, if any, is itself well configured. *)
Definition well_configured (c : stash) : Prop :=
  0 <= lenLimit c /\ -1 <= expirePeriod c /\ 10 * time.Millisecond <= gcPeriod c.

Inductive is_sound_option : (stash -> stash) -> Prop :=
| sopt_LenLimit limit : is_sound_option (LenLimit limit)
| sopt_ExpireAfter dur : is_sound_option (ExpireAfter dur)
| sopt_GcPeriod dur : is_sound_option (GcPeriod dur)
| sopt_CloneFrom_nil : is_sound_option (CloneFrom None)
| sopt_CloneFrom src : well_configured src -> is_sound_option (CloneFrom (Some src))
| sopt_OnEvent h evs : is_sound_option (OnEvent h evs).

(** A registration [OnEvent(handler, events...)] that is kept. *)
Definition kept (r : option OnEventHandler * list Event) : bool :=
  match r with
  | (Some _, _ :: _) => true
  | _ => false
  end.

(** The entries a sweep at [curTime] collects, with their keys. *)
Definition expiredEntries (curTime : Z) (m : gmap string item)
    : list (string * item) :=
  filter (fun kv : string * item => is_expired curTime kv.2 = true)
         (map_to_list m).

(** The operations that do not name [key] and do not clear the store. *)
Definition leaves (key : string) (o : op) : bool :=
  match o with
  | OpSet k _ | OpTouch k _ | OpRemove k | OpSweepRemove k _ =>
      bool_decide (k <> key)
  | OpClean => false
  | OpGet _ | OpLen | OpFlush | OpTick => true
  end.

(** How many firings of a list are of one kind. *)
Definition count_event (ev : Event) (fs : list firing) : nat :=
  length (List.filter (fun f => f_event f =? ev) fs).

(** The kinds the store fires. *)
Definition store_kinds : list Event :=
  [EventGet; EventMiss; EventSet; EventUpdate; EventTouch; EventRemove;
   EventExpire; EventFlush; EventClean].

(** A [Stats] that is called once for each firing of a list. *)
Definition Stats_feed (fs : list firing) (i : Stats) : Stats :=
  fold_left (fun i f => Stats_EventHandler i (f_event f) (f_key f) (f_val f))
            fs i.

(** The nine counters, in the order of the struct, and the kinds the
    handler counts in them. *)
Definition counters (i : Stats) : list Z :=
  [gets i; misses i; sets i; updates i; touches i; errors i; removes i;
   expires i; flushes i].
Definition counted_kinds : list Event :=
  [EventGet; EventMiss; EventSet; EventUpdate; EventTouch; EventError;
   EventRemove; EventExpire; EventFlush].

(** A store with two entries that never expire, and an execution that
    leaves the key ["key-1"] alone. *)
Definition two_never : world :=
  World (Stash 0 DefaultCgPeriod 0 2
           (<[ "key-0"%string := Item (VString "000") (-1) ]>
              {[ "key-1"%string := Item (VString "x") 0 ]})
           None None)
        demo_clock 2%nat [].
Definition two_never_ops : list op :=
  [OpSet "key-2" [VInt64 12; VTime 3000]; OpGet "key-2"; OpLen; OpTick;
   OpRemove "key-0"; OpGet "key-1"; OpFlush].
Definition two_never_final : world :=
  Eval vm_compute in
    match run_ops two_never_ops two_never with
    | Ok (_, w) => w
    | Panic _ => two_never
    end.

(** The kinds [Event.String] has a name for. *)
Definition named_kinds : list Event :=
  [EventAny; EventGet; EventMiss; EventSet; EventUpdate; EventTouch;
   EventRemove; EventExpire; EventFlush].

(** What a registration leaves in the chain. *)
Definition registered (r : option OnEventHandler * list Event)
    : option (OnEventHandler * list Event) :=
  match r with
  | (Some hd, e :: es) => Some (hd, e :: es)
  | _ => None
  end.

(** The specifiers that [resolveTime] treats as no specifier at all: the
    zero duration, zero seconds, the instant of the Unix epoch, a nil
    [*time.Time] and the types [toTime] does not list. *)
Definition defaulting (spec : value) : bool :=
  match spec with
  | VDuration d => d =? DefaultExpire
  | VInt64 n | VUint64 n => wrap64 (time.Second * wrap64 n) =? 0
  | VTime t | VTimePtr (Some t) => time.UnixNano t =? 0
  | VTimePtr None | VString _ | VOther _ => true
  | _ => false
  end.

(** The specifiers that resolve to a negative deadline without a look at
    the clock: the nil interface, [NoExpire], and an instant before the Unix
    epoch. *)
Definition never_spec (spec : value) : bool :=
  match spec with
  | VNil => true
  | VDuration d => d =? NoExpire
  | VTime t | VTimePtr (Some t) => time.UnixNano t <? 0
  | _ => false
  end.

(** * Properties *)

Ltac munfold :=
  unfold mbind, M_bind, mret, M_ret, panic, get_self, put_self, go_fire,
    time_Now in *.

(** ** Actions that only read the clock *)

Lemma readonly_ret {A : Type} (a : A) : readonly (mret a).
Proof. intros w b w' H. munfold. inversion H; subst. repeat split; lia. Qed.

Lemma readonly_panic {A : Type} (why : string) : readonly (@panic A why).
Proof. intros w b w' H. discriminate H. Qed.

Lemma readonly_bind {A B : Type} (m : M A) (f : A -> M B) :
  readonly m -> (forall a, readonly (f a)) -> readonly (m ≫= f).
Proof.
  intros Hm Hf w b w' H. unfold mbind, M_bind in H.
  destruct (m w) as [[a w1]|] eqn:E; [|discriminate].
  destruct (Hm _ _ _ E) as (Hs & Hf1 & Hc & ?).
  destruct (Hf a _ _ _ H) as (Hs' & Hf1' & Hc' & ?).
  repeat split; try congruence; lia.
Qed.

Lemma readonly_time_Now : readonly time_Now.
Proof.
  intros w t w' H. unfold time_Now in H. inversion H; subst; simpl.
  repeat split; lia.
Qed.

Lemma readonly_get_self : readonly get_self.
Proof.
  intros w c w' H. unfold get_self in H. inversion H; subst.
  repeat split; lia.
Qed.

Create HintDb readonly.
#[local] Hint Resolve readonly_ret readonly_panic readonly_time_Now
  readonly_get_self : readonly.

Lemma readonly_toTime_Duration dur : readonly (toTime_Duration dur).
Proof.
  unfold toTime_Duration, toTime_Time.
  destruct (dur =? DefaultExpire); [auto with readonly|].
  destruct (dur =? NoExpire); [auto with readonly|].
  apply readonly_bind; auto with readonly.
Qed.

Lemma readonly_toTime i : readonly (toTime i).
Proof.
  destruct i as [| | | | | | | | | | | | |[t|]| |]; simpl;
    unfold toTime_Time; auto with readonly;
    try apply readonly_toTime_Duration;
    apply readonly_bind; auto using readonly_toTime_Duration with readonly.
Qed.

Lemma readonly_resolveTime i : readonly (resolveTime i).
Proof.
  unfold resolveTime. apply readonly_bind.
  - destruct i as [|? [|? ?]]; auto using readonly_toTime with readonly.
  - intros e. apply readonly_bind.
    + destruct (e =? DefaultExpire); auto with readonly.
      apply readonly_bind; auto using readonly_toTime with readonly.
    + intros e'. destruct (0 <? e'); auto with readonly.
      apply readonly_bind; auto with readonly.
      intros now. destruct (e' <? time.UnixNano now); auto with readonly.
Qed.

(** [resolveTime] reports an error exactly for a positive deadline that lies
    before the instant it reads the clock at. *)
Lemma resolveTime_error i w e er w' :
  resolveTime i w = Ok ((e, er), w') ->
  er = if (0 <? e) && (e <? last_reading w')
       then Some "expire time is in the past"%string else None.
Proof.
  unfold resolveTime. unfold mbind at 1 2, M_bind at 1 2.
  intros H.
  destruct (match i with _ :: i1 :: _ => toTime i1 | _ => mret 0 end w)
    as [[e1 w1]|]; [|discriminate].
  destruct ((if e1 =? DefaultExpire
             then c ← get_self; toTime (VDuration (expirePeriod c))
             else mret e1) w1) as [[e2 w2]|]; [|discriminate].
  destruct (0 <? e2) eqn:Hpos.
  - munfold. unfold last_reading.
    destruct (e2 <? time.UnixNano (clock w2 (reads w2))) eqn:Hlt;
      inversion H; subst; simpl; rewrite Hpos, Hlt; reflexivity.
  - munfold. inversion H; subst. rewrite Hpos. reflexivity.
Qed.

(** ** Rejections of [Set] *)

(** Whatever [Set] rejects, it rejects before it touches the receiver or
    spawns a firing. *)
Lemma Set_rejection_frame key i w err w' :
  Set_ key i w = Ok (Some err, w') ->
  self w' = self w /\ spawned w' = spawned w.
Proof.
  unfold Set_. intros H.
  destruct i as [|i0 rest]; [munfold; inversion H; subst; auto|].
  destruct (is_nil i0); [munfold; inversion H; subst; auto|].
  unfold mbind at 1, M_bind at 1, get_self at 1 in H.
  destruct ((0 <? lenLimit (self w)) && (lenLimit (self w) <=? lenCurrent (self w))).
  - munfold. inversion H; subst. auto.
  - unfold mbind at 1, M_bind at 1 in H.
    destruct (resolveTime (i0 :: rest) w) as [[[e [er|]] w1]|] eqn:E;
      [| |discriminate].
    + munfold. inversion H; subst.
      destruct (readonly_resolveTime _ _ _ _ E) as (? & ? & _). auto.
    + munfold. simpl in H.
      destruct (items (self w1) !! key); simpl in H; inversion H.
Qed.

(** A rejected [Set] hides nothing and reveals nothing: a key that was
    absent is still reported as not found. *)
Lemma Get_absent key w :
  items (self w) !! key = None ->
  Get key w = Ok ((VNil, false),
                  World (self w) (clock w) (reads w)
                        (spawned w ++ [Firing EventMiss key (PVal VNil)])).
Proof. intros H. unfold Get. munfold. rewrite H. reflexivity. Qed.



(** ** Lookups *)

(** [Get] never changes the receiver, and it always returns. *)
Lemma Get_frame key w :
  exists r w', Get key w = Ok (r, w') /\ self w' = self w.
Proof.
  unfold Get. munfold. simpl.
  destruct (items (self w) !! key) as [it|]; [|eauto].
  destruct (0 <? deadline it); simpl.
  - destruct (deadline it <? time.UnixNano (clock w (reads w))); simpl; eauto.
  - eauto.
Qed.

(** C7. [Get] on a key whose entry has a positive deadline that lies before
    the instant [Get] reads the clock at returns [(nil, false)] and leaves the
    receiver as it was: the mapping, every entry of it and the live-count
    [Len] returns are the ones from before the call. Nothing is asked of the
    sweeper, which may be absent. *)
Theorem Get_expired_hides_without_removing key it w :
  items (self w) !! key = Some it ->
  0 < deadline it ->
  deadline it < time.UnixNano (clock w (reads w)) ->
  exists w',
    Get key w = Ok ((VNil, false), w') /\
    self w' = self w /\
    items (self w') !! key = Some it /\
    Len w' = Ok (lenCurrent (self w), w').
Proof.
  intros Hit Hpos Hexp. unfold Get. munfold. rewrite Hit.
  apply Z.ltb_lt in Hpos, Hexp. rewrite Hpos. simpl. rewrite Hexp.
  eexists. split; [reflexivity|]. simpl. unfold Len. munfold. auto.
Qed.

Lemma Get_expired_hides_without_removing_witness :
  exists w',
    Get "k" (boot stale_store (fun _ => 1000)) = Ok ((VNil, false), w') /\
    self w' = stale_store /\
    items (self w') !! "k"%string = Some (Item (VString "v") 5) /\
    Len w' = Ok (1, w').
Proof.
  apply (Get_expired_hides_without_removing "k" (Item (VString "v") 5)
           (boot stale_store (fun _ => 1000))).
  - reflexivity.
  - simpl. lia.
  - vm_compute. reflexivity.
Defined.

(** C10. [GetString] always returns, and it returns what [Get] found:
    not found with the empty string when [Get] reports not found; found, with
    the stored string itself or the formatted text of a stored value of
    another type, when [Get] finds the key. So [GetString] returns
    the empty string and [false] exactly when [Get] reports not found. *)
Theorem GetString_follows_Get (Sprintf_v : value -> string) key w :
  exists v ok w',
    Get key w = Ok ((v, ok), w') /\
    GetString Sprintf_v key w =
      Ok ((if ok then match v with
                      | VString s => s
                      | _ => Sprintf_v v
                      end
           else EmptyString, ok), w') /\
    (GetString Sprintf_v key w = Ok ((EmptyString, false), w') <-> ok = false).
Proof.
  destruct (Get_frame key w) as ([v ok] & w' & HG & _).
  exists v, ok, w'. split; [exact HG|].
  assert (HS : GetString Sprintf_v key w =
      Ok ((if ok then match v with VString s => s | _ => Sprintf_v v end
           else EmptyString, ok), w')).
  { unfold GetString. unfold mbind, M_bind. rewrite HG.
    destruct ok, v; reflexivity. }
  split; [exact HS|]. rewrite HS. split.
  - intros H. inversion H. reflexivity.
  - intros ->. reflexivity.
Qed.

(** ** The capacity check of [Set] *)

(** With a positive limit reached, [Set] rejects every call that passes the
    object check, whether or not the key is in the store. *)
Lemma Set_at_limit_rejects key i0 rest w :
  is_nil i0 = false ->
  0 < lenLimit (self w) -> lenLimit (self w) <= lenCurrent (self w) ->
  Set_ key (i0 :: rest) w = Ok (Some "len limit reached"%string, w).
Proof.
  intros Hnil Hpos Hfull. unfold Set_. rewrite Hnil. munfold.
  apply Z.ltb_lt in Hpos. apply Z.leb_le in Hfull. rewrite Hpos, Hfull.
  reflexivity.
Qed.

(** Below the limit, or without one, an object with a specifier the
    resolver accepts is stored: a present key is updated and fires
    [EventUpdate], a new one is inserted, counted, and fires [EventSet]. *)
Lemma Set_accepted key i0 rest w e w1 :
  is_nil i0 = false ->
  (0 <? lenLimit (self w)) && (lenLimit (self w) <=? lenCurrent (self w)) = false ->
  resolveTime (i0 :: rest) w = Ok ((e, None), w1) ->
  let m := <[key := Item i0 e]> (items (self w)) in
  Set_ key (i0 :: rest) w
  = Ok (None,
        match items (self w) !! key with
        | Some _ =>
            World (set_items m (self w)) (clock w) (reads w1)
                  (spawned w ++ [Firing EventUpdate key (PVal i0)])
        | None =>
            World (set_lenCurrent (len m) (set_items m (self w))) (clock w)
                  (reads w1) (spawned w ++ [Firing EventSet key (PVal i0)])
        end).
Proof.
  intros Hnil Hlim Hres m. unfold Set_. rewrite Hnil.
  unfold mbind at 1, M_bind at 1, get_self at 1. rewrite Hlim.
  unfold mbind at 1, M_bind at 1. rewrite Hres.
  destruct (readonly_resolveTime _ _ _ _ Hres) as (Hself & Hsp & Hclk & _).
  munfold. simpl. rewrite Hself.
  destruct (items (self w) !! key); simpl; rewrite Hsp, Hclk; reflexivity.
Qed.

(** C1, on the code. A store of limit 1 that holds the key ["a"] rejects
    [Set("a", "y")]: the entry keeps its value and no firing is spawned. *)
Theorem Set_update_at_limit_rejected :
  Set_ "a" [VString "x"] (boot (New [LenLimit 1]) (fun _ => 1000))
    = Ok (None, full_world) /\
  items (self full_world) !! "a"%string = Some (Item (VString "x") 0) /\
  Set_ "a" [VString "y"] full_world
    = Ok (Some "len limit reached"%string, full_world).
Proof. repeat split; vm_compute; reflexivity. Qed.

(** ** Removal of a key that is not there *)

(** [remove] on an absent key evaluates [o.Object] on a nil [o]. *)
Lemma remove_absent_panics key event w :
  items (self w) !! key = None ->
  remove key event w
    = Panic "invalid memory address or nil pointer dereference".
Proof. intros H. unfold remove. munfold. rewrite H. reflexivity. Qed.

(** C2, on the code. [Remove] of a key an empty store does not hold
    panics, and so does the removal the sweep makes of a key that is gone. *)
Theorem Remove_absent_key_panics :
  Remove "a" (boot (New []) (fun _ => 1000))
    = Panic "invalid memory address or nil pointer dereference" /\
  remove "a" EventExpire (boot (New []) (fun _ => 1000))
    = Panic "invalid memory address or nil pointer dereference" /\
  remove_all ["a"; "a"]%string EventExpire full_world
    = Panic "invalid memory address or nil pointer dereference".
Proof. repeat split; vm_compute; reflexivity. Qed.

(** ** Resolution of the expiration specifier *)

Lemma toTime_Duration_returns dur w :
  exists e w', toTime_Duration dur w = Ok (e, w').
Proof.
  unfold toTime_Duration, toTime_Time. munfold.
  destruct (dur =? DefaultExpire); [eauto|].
  destruct (dur =? NoExpire); eauto.
Qed.

(** [toTime] returns on every resolvable specifier, and panics on the
    integer types of the other widths, whose case asserts [int64] or
    [uint64]. *)
Lemma toTime_returns_iff_resolvable i w :
  if resolvable i
  then exists e w', toTime i w = Ok (e, w')
  else exists why, toTime i w = Panic why.
Proof.
  destruct i as [| | | | | | | | | | | | |[t|]| |]; simpl;
    unfold toTime_Time; munfold; eauto using toTime_Duration_returns.
Qed.

(** What [toTime] makes of the resolvable kinds: a duration other than the
    two sentinels is added to the clock's reading, an instant is taken as it
    is, [NoExpire] and nil give the never-marker, and the zero duration, a nil
    pointer and the unlisted types give [DefaultExpire]. *)
Lemma toTime_values w :
  (forall dur, dur <> DefaultExpire -> dur <> NoExpire ->
     toTime (VDuration dur) w
       = Ok (time.UnixNano (time.Add (clock w (reads w)) dur),
             World (self w) (clock w) (S (reads w)) (spawned w))) /\
  (forall t, toTime (VTime t) w = Ok (time.UnixNano t, w)) /\
  (forall t, toTime (VTimePtr (Some t)) w = Ok (time.UnixNano t, w)) /\
  toTime (VDuration NoExpire) w = Ok (NoExpire, w) /\
  toTime VNil w = Ok (NoExpire, w) /\
  toTime (VDuration DefaultExpire) w = Ok (DefaultExpire, w) /\
  toTime (VTimePtr None) w = Ok (DefaultExpire, w) /\
  (forall s, toTime (VString s) w = Ok (DefaultExpire, w)) /\
  (forall tag, toTime (VOther tag) w = Ok (DefaultExpire, w)).
Proof.
  repeat split; try reflexivity.
  intros dur H0 H1. simpl. unfold toTime_Duration, toTime_Time. munfold.
  apply Z.eqb_neq in H0, H1. rewrite H0, H1. reflexivity.
Qed.

(** C5, on the code. [Set("k", "v", 10)], the specifier being the [int] ten
    of an untyped constant, panics in [toTime]; so do [int32] and [uint8]
    specifiers, and [Touch] with such a specifier in second place. *)
Theorem toTime_int_specifier_panics :
  let w := boot (New []) (fun _ => 1000) in
  toTime (VInt 10) w
    = Panic "interface conversion: interface {} is not int64" /\
  toTime (VInt32 10) w
    = Panic "interface conversion: interface {} is not int64" /\
  toTime (VUint8 10) w
    = Panic "interface conversion: interface {} is not uint64" /\
  Set_ "k" [VString "v"; VInt 10] w
    = Panic "interface conversion: interface {} is not int64" /\
  Touch "k" [VNil; VInt 10] w
    = Panic "interface conversion: interface {} is not int64".
Proof. repeat split; vm_compute; reflexivity. Qed.

(** ** [Touch] on a key that is not there *)

(** In the store that holds ["a"] only, [Touch("b")] returns the nil error
    [Touch("a")] returns. *)
Lemma Touch_absent_returns_as_present : ~ Touch_reports_absence.
Proof.
  intros H.
  refine (H full_world "b"%string "a"%string [] None None _ _ _ _ _ _ eq_refl).
  - reflexivity.
  - eexists. reflexivity.
  - vm_compute. reflexivity.
  - vm_compute. reflexivity.
Qed.

(** C4, as the code has it. [Touch] on an absent key, with arguments the
    resolver accepts, changes neither the store nor the spawned firings and
    returns the nil error, which is also what a successful touch returns. *)
Theorem Touch_absent_is_noop key i w e w' :
  items (self w) !! key = None ->
  resolveTime i w = Ok ((e, None), w') ->
  Touch key i w = Ok (None, w') /\
  self w' = self w /\ spawned w' = spawned w.
Proof.
  intros Habs Hres.
  destruct (readonly_resolveTime _ _ _ _ Hres) as (Hself & Hsp & _).
  split; [|auto].
  unfold Touch. unfold mbind at 1, M_bind at 1. rewrite Hres.
  munfold. rewrite Hself, Habs. reflexivity.
Qed.

Lemma Touch_absent_is_noop_witness :
  Touch "b" [VNil; VDuration (60 * time.Second)] full_world
    = Ok (None, World (self full_world) (clock full_world) 2%nat
                      (spawned full_world)) /\
  self (World (self full_world) (clock full_world) 2%nat (spawned full_world))
    = self full_world /\
  spawned (World (self full_world) (clock full_world) 2%nat (spawned full_world))
    = spawned full_world.
Proof.
  apply (Touch_absent_is_noop "b" [VNil; VDuration (60 * time.Second)]
           full_world 60000001000).
  - reflexivity.
  - vm_compute. reflexivity.
Defined.

(** ** The sweep interval *)

(** [New(GcPeriod(0))] runs the sweeper, every five minutes. *)
Lemma GcPeriod_zero_starts_sweeper : ~ nonpositive_interval_disables_sweeper.
Proof.
  intros H. specialize (H 0 (Z.le_refl 0)). vm_compute in H. discriminate H.
Qed.

(** C3, as the code has it. [GcPeriod], as the last option given to [New],
    leaves a duration of at least 10ms as it is and replaces every shorter
    one, zero and negative ones included, by the default of five minutes. In
    both cases [New] starts the sweeper, at the resulting interval, which is
    never below 10ms. *)
Theorem GcPeriod_never_disables_sweeper (opts : list (stash -> stash)) dur :
  let c := New (opts ++ [GcPeriod dur]) in
  gcPeriod c = (if dur <? 10 * time.Millisecond then DefaultCgPeriod else dur) /\
  sweeper c = Some (Gc (gcPeriod c)) /\
  10 * time.Millisecond <= gcPeriod c.
Proof.
  unfold New. rewrite fold_left_app. cbn [fold_left].
  set (c0 := fold_left _ opts _).
  set (p := if dur <? 10 * time.Millisecond then DefaultCgPeriod else dur).
  assert (Hp : 10 * time.Millisecond <= p).
  { unfold p. destruct (dur <? 10 * time.Millisecond) eqn:E.
    - vm_compute. discriminate.
    - apply Z.ltb_ge in E. exact E. }
  assert (Hg : gcPeriod (GcPeriod dur c0) = p) by reflexivity.
  assert (Hpos : (0 <? gcPeriod (GcPeriod dur c0)) = true).
  { rewrite Hg. apply Z.ltb_lt.
    assert (0 < 10 * time.Millisecond) by (vm_compute; reflexivity). lia. }
  rewrite Hpos. simpl. auto.
Qed.

(** ** Delivery of events *)

Lemma subscribed_wants es hd nx event :
  subscribed es event = true <-> wants event (EventHandler es hd nx).
Proof.
  unfold wants. simpl. induction es as [|e es IH]; simpl.
  - split; [discriminate|]. intros [H|H]; inversion H.
  - destruct (e =? EventAny) eqn:Ea; simpl.
    + apply Z.eqb_eq in Ea. subst e. split; [|reflexivity].
      intros _. right. left.
    + destruct (e =? event) eqn:Ee.
      * apply Z.eqb_eq in Ee. subst e. split; [|reflexivity].
        intros _. left. left.
      * apply Z.eqb_neq in Ea, Ee. rewrite IH.
        rewrite !elem_of_cons. intuition congruence.
Qed.

(** [fire] launches the callbacks of the links that want the event, one for
    each, the innermost link first. *)
Lemma fire_link_wanted h event key val :
  fire_link h event key val
  = rev (map (fun l => Call (handler l) event key val)
             (filter (wants event) (links h))).
Proof.
  revert h. fix IH 1. intros [es hd nx].
  assert (Hown : (if subscribed es event then [Call hd event key val] else [])
                 = rev (map (fun l => Call (handler l) event key val)
                            (filter (wants event) [EventHandler es hd nx]))).
  { rewrite filter_cons, filter_nil.
    destruct (decide (wants event (EventHandler es hd nx))) as [Hw|Hw].
    - apply subscribed_wants in Hw. rewrite Hw. reflexivity.
    - destruct (subscribed es event) eqn:E; [|reflexivity].
      exfalso. apply Hw. apply subscribed_wants. exact E. }
  change (links (EventHandler es hd nx))
    with ([EventHandler es hd nx] ++
          match nx with Some n => links n | None => [] end).
  rewrite filter_app, map_app, rev_app_distr, <- Hown.
  destruct nx as [n|]; simpl; [rewrite IH|]; reflexivity.
Qed.

(** C8. Firing an event on a chain launches exactly one callback for every
    link whose kinds hold the event's kind or [EventAny], with the event that
    was fired, and none for any other link: the callbacks launched are, up to
    the order goroutines start in, those of the links of the chain that want
    the event. *)
Theorem fire_reaches_exactly_subscribers h event key val :
  fire h event key val
  ≡ₚ map (fun l => Call (handler l) event key val)
          (filter (wants event) (chain h)).
Proof.
  destruct h as [h|]; simpl; [|reflexivity].
  rewrite fire_link_wanted. symmetry. apply Permutation_rev.
Qed.

(** A link of the chain that holds the wildcard is called whatever the
    event; a call that is made is the call of a link that wants the event. *)
Lemma fire_wildcard h l event key val :
  l ∈ chain h -> EventAny ∈ events l ->
  Call (handler l) event key val ∈ fire h event key val.
Proof.
  intros Hl Hany. destruct h as [h|]; simpl in *; [|inversion Hl].
  rewrite fire_link_wanted, list_elem_of_In, <- in_rev, <- list_elem_of_In.
  apply list_elem_of_fmap. exists l. split; [reflexivity|].
  apply list_elem_of_filter. split; [right; exact Hany|exact Hl].
Qed.

Lemma fire_only_subscribers h c event key val :
  c ∈ fire h event key val ->
  exists l, l ∈ chain h /\ wants event l /\ c = Call (handler l) event key val.
Proof.
  destruct h as [h|]; simpl; [|intros Hc; inversion Hc].
  rewrite fire_link_wanted, list_elem_of_In, <- in_rev, <- list_elem_of_In. intros Hc.
  apply list_elem_of_fmap in Hc. destruct Hc as (l & -> & Hl).
  apply list_elem_of_filter in Hl. destruct Hl as [Hw Hl]. eauto.
Qed.

(** [OnEvent] with a callback and at least one kind puts a link in front of
    the chain; without either it registers nothing. *)
Lemma OnEvent_chain h evs c :
  chain (observers (OnEvent h evs c))
  = match h, evs with
    | None, _ | _, [] => chain (observers c)
    | Some hd, _ => EventHandler evs hd (observers c) :: chain (observers c)
    end.
Proof.
  destruct h as [hd|], evs as [|e evs]; reflexivity.
Qed.

(** ** The live-count *)

Lemma len_insert_present key (it it' : item) (m : gmap string item) :
  m !! key = Some it -> len (<[key := it']> m) = len m.
Proof.
  intros H. unfold len. f_equal. apply map_size_insert_Some. eauto.
Qed.

Lemma Set_consistent key i w r w' :
  consistent (self w) -> Set_ key i w = Ok (r, w') -> consistent (self w').
Proof.
  unfold Set_. intros Hc H.
  destruct i as [|i0 rest]; [munfold; inversion H; subst; exact Hc|].
  destruct (is_nil i0); [munfold; inversion H; subst; exact Hc|].
  unfold mbind at 1, M_bind at 1, get_self at 1 in H.
  destruct ((0 <? lenLimit (self w)) && (lenLimit (self w) <=? lenCurrent (self w))).
  { munfold. inversion H; subst. exact Hc. }
  unfold mbind at 1, M_bind at 1 in H.
  destruct (resolveTime (i0 :: rest) w) as [[[e [er|]] w1]|] eqn:E;
    [| |discriminate];
    destruct (readonly_resolveTime _ _ _ _ E) as (Hself & _).
  - munfold. inversion H; subst. rewrite Hself. exact Hc.
  - munfold. simpl in H. rewrite Hself in H.
    destruct (items (self w) !! key) as [v|] eqn:Hk; simpl in H;
      inversion H; subst; unfold consistent; simpl.
    + rewrite (len_insert_present _ _ _ _ Hk). exact Hc.
    + reflexivity.
Qed.

Lemma Touch_consistent key i w r w' :
  consistent (self w) -> Touch key i w = Ok (r, w') -> consistent (self w').
Proof.
  unfold Touch. intros Hc H. unfold mbind at 1, M_bind at 1 in H.
  destruct (resolveTime i w) as [[[e [er|]] w1]|] eqn:E; [| |discriminate];
    destruct (readonly_resolveTime _ _ _ _ E) as (Hself & _).
  - munfold. inversion H; subst. rewrite Hself. exact Hc.
  - munfold. simpl in H. rewrite Hself in H.
    destruct (items (self w) !! key) as [v|] eqn:Hk; simpl in H;
      inversion H; subst; unfold consistent; simpl.
    + rewrite (len_insert_present _ _ _ _ Hk). exact Hc.
    + rewrite Hself. exact Hc.
Qed.

Lemma Get_consistent key w r w' :
  consistent (self w) -> Get key w = Ok (r, w') -> consistent (self w').
Proof.
  intros Hc H. destruct (Get_frame key w) as (r0 & w0 & HG & Hself).
  rewrite HG in H. inversion H; subst. rewrite Hself. exact Hc.
Qed.

(** After a removal that returns, the live-count is the size of the
    mapping, whatever it was before. *)
Lemma remove_consistent key event w r w' :
  remove key event w = Ok (r, w') -> consistent (self w').
Proof.
  unfold remove. munfold. intros H.
  destruct (items (self w) !! key) as [it|]; simpl in H; [|discriminate].
  inversion H; subst. reflexivity.
Qed.

Lemma Clean_consistent w r w' : Clean w = Ok (r, w') -> consistent (self w').
Proof. unfold Clean. munfold. intros H. inversion H; subst. reflexivity. Qed.

Lemma remove_all_consistent removed event w r w' :
  consistent (self w) -> remove_all removed event w = Ok (r, w') ->
  consistent (self w').
Proof.
  revert w. induction removed as [|key rest IH]; intros w Hc H; simpl in H.
  - munfold. inversion H; subst. exact Hc.
  - unfold mbind, M_bind in H.
    destruct (remove key event w) as [[r1 w1]|] eqn:E; [|discriminate].
    apply (IH w1); [|exact H]. exact (remove_consistent _ _ _ _ _ E).
Qed.

Lemma expire_consistent event w r w' :
  consistent (self w) -> expire event w = Ok (r, w') -> consistent (self w').
Proof.
  unfold expire. intros Hc H.
  unfold mbind, M_bind, time_Now, get_self in H. simpl in H.
  apply (remove_all_consistent _ _ _ _ _ (Hc : consistent (self (World
           (self w) (clock w) (S (reads w)) (spawned w)))) H).
Qed.

Lemma run_op_consistent o w r w' :
  consistent (self w) -> run_op o w = Ok (r, w') -> consistent (self w').
Proof.
  intros Hc H. destruct o; simpl in H;
    try (unfold mbind at 1, M_bind at 1 in H).
  - destruct (Set_ key i w) as [[r1 w1]|] eqn:E; [|discriminate].
    munfold. inversion H; subst. exact (Set_consistent _ _ _ _ _ Hc E).
  - destruct (Touch key i w) as [[r1 w1]|] eqn:E; [|discriminate].
    munfold. inversion H; subst. exact (Touch_consistent _ _ _ _ _ Hc E).
  - destruct (Get key w) as [[r1 w1]|] eqn:E; [|discriminate].
    munfold. inversion H; subst. exact (Get_consistent _ _ _ _ Hc E).
  - destruct (Remove key w) as [[r1 w1]|] eqn:E; [|discriminate].
    munfold. inversion H; subst. exact (remove_consistent _ _ _ _ _ E).
  - unfold Len in H. munfold. inversion H; subst. exact Hc.
  - exact (Clean_consistent _ _ _ H).
  - exact (expire_consistent _ _ _ _ Hc H).
  - exact (expire_consistent _ _ _ _ Hc H).
  - destruct (remove key event w) as [[r1 w1]|] eqn:E; [|discriminate].
    munfold. inversion H; subst. exact (remove_consistent _ _ _ _ _ E).
Qed.

Lemma run_ops_consistent os w r w' :
  consistent (self w) -> run_ops os w = Ok (r, w') -> consistent (self w').
Proof.
  revert w. induction os as [|o os IH]; intros w Hc H; simpl in H.
  - munfold. inversion H; subst. exact Hc.
  - unfold mbind, M_bind in H.
    destruct (run_op o w) as [[r1 w1]|] eqn:E; [|discriminate].
    exact (IH w1 (run_op_consistent _ _ _ _ Hc E) H).
Qed.

Lemma is_option_consistent opt c :
  is_option opt -> consistent c -> consistent (opt c).
Proof.
  intros Hopt Hc. destruct Hopt as [limit|dur|dur|src|h evs].
  - unfold LenLimit. destruct (NoLenLimit <=? limit); exact Hc.
  - exact Hc.
  - exact Hc.
  - destruct src as [s|]; [reflexivity|exact Hc].
  - destruct h as [hd|], evs as [|e evs]; exact Hc.
Qed.

Lemma New_consistent opts : Forall is_option opts -> consistent (New opts).
Proof.
  intros Hopts. unfold New.
  assert (H : forall c, consistent c ->
            consistent (fold_left (fun c opt => opt c) opts c)).
  { induction Hopts as [|opt opts Hopt _ IH]; intros c Hc; simpl; [exact Hc|].
    apply IH. exact (is_option_consistent _ _ Hopt Hc). }
  specialize (H _ (eq_refl : consistent
    (Stash DefaultExpire DefaultCgPeriod NoLenLimit 0 ∅ None None))).
  destruct (0 <? gcPeriod _); exact H.
Qed.

(** C9. In every execution of a store made by [New] from the package's
    options, after any sequence of [Set], [Touch], [Get], [Remove], [Len],
    [Clean], [Flush], sweeper ticks and single sweep removals that have all
    returned, [Len] returns the number of keys of the mapping, the entries
    whose deadline has passed included for as long as they are in it. *)
Theorem Len_counts_keys_of_mapping opts clk os w' :
  Forall is_option opts ->
  run_ops os (boot (New opts) clk) = Ok (tt, w') ->
  Len w' = Ok (Z.of_nat (size (items (self w'))), w').
Proof.
  intros Hopts Hrun. unfold Len. munfold.
  assert (Hc : consistent (self w')).
  { apply (run_ops_consistent os (boot (New opts) clk) tt w'); [|exact Hrun].
    apply New_consistent. exact Hopts. }
  rewrite Hc. reflexivity.
Qed.

Lemma Len_counts_keys_of_mapping_witness :
  Len demo_final = Ok (Z.of_nat (size (items (self demo_final))), demo_final).
Proof.
  apply (Len_counts_keys_of_mapping demo_opts demo_clock demo_ops).
  - repeat constructor.
  - vm_compute. reflexivity.
Defined.

(** ** The sweep on its own *)

Lemma remove_present key event it w :
  items (self w) !! key = Some it ->
  remove key event w
  = Ok ((Some it, true),
        World (set_lenCurrent (len (delete key (items (self w))))
                 (set_items (delete key (items (self w))) (self w)))
              (clock w) (reads w)
              (spawned w ++ [Firing event key (PVal (Object it))])).
Proof. intros H. unfold remove. munfold. rewrite H. reflexivity. Qed.

Lemma remove_all_returns removed event w :
  NoDup removed ->
  (forall key, key ∈ removed -> is_Some (items (self w) !! key)) ->
  exists w', remove_all removed event w = Ok (tt, w').
Proof.
  intros Hnd. revert w.
  induction Hnd as [|key rest Hnotin Hnd IH]; intros w Hin; simpl.
  - munfold. eauto.
  - destruct (Hin key) as [it Hit]; [left|].
    unfold mbind, M_bind. rewrite (remove_present _ _ _ _ Hit).
    apply IH. intros key' Hk'. simpl.
    rewrite lookup_delete_ne by (intros ->; contradiction).
    apply Hin. right. exact Hk'.
Qed.

(** A sweep that no other call interleaves with returns: the keys it
    collected are distinct and still in the mapping when it removes them. *)
Lemma expire_returns event w : exists w', expire event w = Ok (tt, w').
Proof.
  unfold expire. unfold mbind, M_bind, time_Now, get_self. simpl.
  apply remove_all_returns.
  - unfold expiredItems.
    apply (sublist_NoDup _ ((map_to_list (items (self w))).*1)).
    + apply NoDup_fst_map_to_list.
    + apply fmap_sublist. apply sublist_filter.
  - intros key Hkey. simpl. unfold expiredItems in Hkey.
    apply list_elem_of_fmap in Hkey. destruct Hkey as ([k it] & -> & Hin).
    apply list_elem_of_filter in Hin. destruct Hin as [_ Hin].
    apply elem_of_map_to_list in Hin. simpl. eauto.
Qed.


(** * Further properties of the store *)

(** ** What an accepted [Set] commits *)

Lemma len_insert_absent key (it : item) (m : gmap string item) :
  m !! key = None -> len (<[key := it]> m) = len m + 1.
Proof.
  intros H. unfold len. rewrite (map_size_insert_None _ _ _ H). lia.
Qed.

Lemma len_delete_present key (it : item) (m : gmap string item) :
  m !! key = Some it -> len (delete key m) = len m - 1.
Proof.
  intros H. unfold len.
  rewrite <- (insert_delete_id m key it H) at 2.
  rewrite map_size_insert_None by apply lookup_delete_eq. lia.
Qed.

(** What [Set] has done when it returns the nil error. *)
Lemma Set_accepted_inv key i w w1 :
  Set_ key i w = Ok (None, w1) ->
  exists i0 rest e,
    i = i0 :: rest /\ is_nil i0 = false /\
    items (self w1) = <[key := Item i0 e]> (items (self w)) /\
    live (last_reading w1) (Item i0 e) /\
    config (self w1) = config (self w) /\
    spawned w1
    = spawned w ++ [Firing match items (self w) !! key with
                           | Some _ => EventUpdate
                           | None => EventSet
                           end key (PVal i0)] /\
    lenCurrent (self w1)
    = match items (self w) !! key with
      | Some _ => lenCurrent (self w)
      | None => len (items (self w)) + 1
      end /\
    (0 < lenLimit (self w) -> lenCurrent (self w) < lenLimit (self w)).
Proof.
  intros H. pose proof H as H0. unfold Set_ in H0.
  destruct i as [|i0 rest]; [munfold; discriminate H0|].
  destruct (is_nil i0) eqn:Hnil; [munfold; discriminate H0|].
  unfold mbind at 1, M_bind at 1, get_self at 1 in H0.
  destruct ((0 <? lenLimit (self w)) && (lenLimit (self w) <=? lenCurrent (self w)))
    eqn:Hlim; [munfold; discriminate H0|].
  unfold mbind at 1, M_bind at 1 in H0.
  destruct (resolveTime (i0 :: rest) w) as [[[e [er|]] w']|] eqn:Hres;
    [munfold; discriminate H0| |discriminate H0].
  clear H0. rewrite (Set_accepted _ _ _ _ _ _ Hnil Hlim Hres) in H.
  exists i0, rest, e.
  assert (Hlive : forall w2, clock w2 = clock w -> reads w2 = reads w' ->
                    live (last_reading w2) (Item i0 e)).
  { intros w2 Hc Hr. pose proof (resolveTime_error _ _ _ _ _ Hres) as Herr.
    destruct (readonly_resolveTime _ _ _ _ Hres) as (_ & _ & Hclk & _).
    unfold live, last_reading in *. simpl. rewrite Hc, Hr, <- Hclk.
    destruct (0 <? e) eqn:Hpos; [|apply Z.ltb_ge in Hpos; left; lia].
    destruct (e <? time.UnixNano (clock w' (Init.Nat.pred (reads w')))) eqn:Hlt;
      [discriminate Herr|].
    apply Z.ltb_ge in Hlt. right. exact Hlt. }
  assert (Hcap : 0 < lenLimit (self w) -> lenCurrent (self w) < lenLimit (self w)).
  { intros Hpos. apply andb_false_iff in Hlim. destruct Hlim as [Hl|Hl].
    - apply Z.ltb_ge in Hl. lia.
    - apply Z.leb_gt in Hl. exact Hl. }
  destruct (items (self w) !! key) as [v|] eqn:Hk; inversion H; subst; simpl;
    (split; [reflexivity|]); (split; [exact Hnil|]);
    (split; [reflexivity|]); (split; [apply Hlive; reflexivity|]);
    (split; [reflexivity|]); (split; [reflexivity|]); (split; [|exact Hcap]).
  - reflexivity.
  - apply len_insert_absent. exact Hk.
Qed.



(** ** Lookups of live entries *)

(** [Get] finds an entry that has no positive deadline, or whose deadline
    is not before the instant [Get] reads the clock at (a deadline equal to
    that instant is still live): it returns the stored object, leaves the
    store alone and fires [EventGet] with the item. *)
Theorem Get_finds_live_entry key it w :
  items (self w) !! key = Some it ->
  live (time.UnixNano (clock w (reads w))) it ->
  exists w',
    Get key w = Ok ((Object it, true), w') /\
    self w' = self w /\
    spawned w' = spawned w ++ [Firing EventGet key (PItem it)].
Proof.
  intros Hit Hlive. unfold Get. munfold. rewrite Hit.
  destruct (0 <? deadline it) eqn:Hpos; simpl.
  - destruct Hlive as [Hl|Hl]; [apply Z.ltb_lt in Hpos; lia|].
    apply Z.ltb_ge in Hl. rewrite Hl. eauto.
  - eauto.
Qed.

Lemma Get_finds_live_entry_witness :
  exists w',
    Get "k" (boot stale_store (fun _ => 5)) = Ok ((VString "v", true), w') /\
    self w' = stale_store /\
    spawned w' = [] ++ [Firing EventGet "k" (PItem (Item (VString "v") 5))].
Proof.
  apply (Get_finds_live_entry "k" (Item (VString "v") 5)
           (boot stale_store (fun _ => 5))).
  - reflexivity.
  - right. vm_compute. discriminate.
Defined.

(** ** Removal of a key that is there *)

(** [Remove] of a present key returns the item (the [*item], not the
    object it holds) and [true], deletes the key and nothing else, lowers the
    live-count to the new size of the mapping, and fires [EventRemove] with
    the object; [Get] of the key then misses. *)
Theorem Remove_present_deletes key it w :
  items (self w) !! key = Some it ->
  exists w',
    Remove key w = Ok ((Some it, true), w') /\
    items (self w') = delete key (items (self w)) /\
    lenCurrent (self w') = len (items (self w)) - 1 /\
    config (self w') = config (self w) /\
    spawned w' = spawned w ++ [Firing EventRemove key (PVal (Object it))] /\
    exists w2, Get key w' = Ok ((VNil, false), w2).
Proof.
  intros Hit. unfold Remove. rewrite (remove_present _ _ _ _ Hit).
  eexists. split; [reflexivity|]. simpl.
  split; [reflexivity|].
  split; [apply (len_delete_present _ _ _ Hit)|].
  split; [reflexivity|]. split; [reflexivity|].
  eexists. apply Get_absent. simpl. apply lookup_delete_eq.
Qed.

Lemma Remove_present_deletes_witness :
  exists w',
    Remove "a" full_world = Ok ((Some (Item (VString "x") 0), true), w') /\
    items (self w') = delete "a"%string (items (self full_world)) /\
    lenCurrent (self w') = len (items (self full_world)) - 1 /\
    config (self w') = config (self full_world) /\
    spawned w' = spawned full_world ++ [Firing EventRemove "a" (PVal (VString "x"))] /\
    exists w2, Get "a" w' = Ok ((VNil, false), w2).
Proof.
  apply (Remove_present_deletes "a" (Item (VString "x") 0) full_world).
  reflexivity.
Defined.

(** ** [Clean] *)

(** [Clean] always returns; afterwards [Len] is 0, every [Get] misses, the
    configuration is as before, and one firing was spawned: [EventClean] with
    the empty key and nil. *)
Theorem Clean_empties w :
  exists w',
    Clean w = Ok (tt, w') /\
    items (self w') = ∅ /\
    Len w' = Ok (0, w') /\
    config (self w') = config (self w) /\
    spawned w' = spawned w ++ [Firing EventClean EmptyString (PVal VNil)] /\
    forall key, exists w2, Get key w' = Ok ((VNil, false), w2).
Proof.
  unfold Clean. munfold. eexists. split; [reflexivity|]. simpl.
  repeat split.
  intros key. eexists. apply Get_absent. simpl. apply lookup_empty.
Qed.

(** ** [Touch] *)

(** [Touch] of a present key, with arguments the resolver accepts, puts the
    resolved deadline on the entry and keeps its object; the other keys, the
    live-count and the configuration are as before, and [EventTouch] is fired
    with the object. *)
Theorem Touch_present_sets_deadline key it i w e w1 :
  items (self w) !! key = Some it ->
  resolveTime i w = Ok ((e, None), w1) ->
  exists w',
    Touch key i w = Ok (None, w') /\
    items (self w') = <[key := Item (Object it) e]> (items (self w)) /\
    lenCurrent (self w') = lenCurrent (self w) /\
    config (self w') = config (self w) /\
    spawned w' = spawned w ++ [Firing EventTouch key (PVal (Object it))].
Proof.
  intros Hit Hres.
  destruct (readonly_resolveTime _ _ _ _ Hres) as (Hself & Hsp & _).
  unfold Touch. unfold mbind at 1, M_bind at 1. rewrite Hres.
  munfold. rewrite Hself, Hit. simpl.
  eexists. split; [reflexivity|]. simpl. rewrite Hsp. repeat split.
Qed.

Lemma Touch_present_sets_deadline_witness :
  exists w',
    Touch "a" [VNil; VDuration NoExpire] full_world = Ok (None, w') /\
    items (self w') = <[ "a"%string := Item (VString "x") (-1) ]> (items (self full_world)) /\
    lenCurrent (self w') = lenCurrent (self full_world) /\
    config (self w') = config (self full_world) /\
    spawned w' = spawned full_world ++ [Firing EventTouch "a" (PVal (VString "x"))].
Proof.
  apply (Touch_present_sets_deadline "a" (Item (VString "x") 0)
           [VNil; VDuration NoExpire] full_world (-1) full_world).
  - reflexivity.
  - reflexivity.
Defined.

(** [Touch] hands its variadic arguments to the resolver as they are, and
    the resolver reads the specifier in second place: the first argument after
    the key is never looked at, so [Touch(key, spec)] does what [Touch(key)]
    does, whatever [spec] is. *)
Theorem Touch_ignores_first_argument key a b rest w :
  Touch key [a] w = Touch key [] w /\
  Touch key (a :: rest) w = Touch key (b :: rest) w.
Proof.
  split; [reflexivity|]. destruct rest; reflexivity.
Qed.

(** ** One step of each operation *)

Lemma Set_step key i w r w' :
  Set_ key i w = Ok (r, w') ->
  config (self w') = config (self w) /\
  (reads w <= reads w')%nat /\
  ((self w' = self w /\ spawned w' = spawned w) \/
   (exists i0 e ev,
      r = None /\
      items (self w') = <[key := Item i0 e]> (items (self w)) /\
      lenCurrent (self w')
      = match items (self w) !! key with
        | Some _ => lenCurrent (self w)
        | None => len (items (self w)) + 1
        end /\
      (0 < lenLimit (self w) -> lenCurrent (self w) < lenLimit (self w)) /\
      (ev = EventSet \/ ev = EventUpdate) /\
      spawned w' = spawned w ++ [Firing ev key (PVal i0)])).
Proof.
  intros H. destruct r as [err|].
  - destruct (Set_rejection_frame _ _ _ _ _ H) as [Hself Hsp].
    split; [unfold config; rewrite Hself; reflexivity|].
    split; [|left; auto].
    unfold Set_ in H.
    destruct i as [|i0 rest]; [munfold; inversion H; subst; lia|].
    destruct (is_nil i0); [munfold; inversion H; subst; lia|].
    unfold mbind at 1, M_bind at 1, get_self at 1 in H.
    destruct ((0 <? lenLimit (self w)) && (lenLimit (self w) <=? lenCurrent (self w)));
      [munfold; inversion H; subst; lia|].
    unfold mbind at 1, M_bind at 1 in H.
    destruct (resolveTime (i0 :: rest) w) as [[[e [er|]] w1]|] eqn:E;
      [| |discriminate].
    + munfold. inversion H; subst.
      destruct (readonly_resolveTime _ _ _ _ E) as (_ & _ & _ & ?). lia.
    + munfold. simpl in H.
      destruct (items (self w1) !! key); simpl in H; inversion H.
  - destruct (Set_accepted_inv _ _ _ _ H)
      as (i0 & rest & e & -> & Hnil & Hit & _ & Hcfg & Hsp & Hlen & Hcap).
    split; [exact Hcfg|]. split.
    + pose proof H as H0. unfold Set_ in H0. rewrite Hnil in H0.
      unfold mbind at 1, M_bind at 1, get_self at 1 in H0.
      destruct ((0 <? lenLimit (self w)) && (lenLimit (self w) <=? lenCurrent (self w)))
        eqn:Hlim; [munfold; discriminate H0|].
      unfold mbind at 1, M_bind at 1 in H0.
      destruct (resolveTime (i0 :: rest) w) as [[[e' [er|]] w1]|] eqn:E;
        [munfold; discriminate H0| |discriminate H0].
      rewrite (Set_accepted _ _ _ _ _ _ Hnil Hlim E) in H.
      destruct (readonly_resolveTime _ _ _ _ E) as (_ & _ & _ & ?).
      destruct (items (self w) !! key); inversion H; subst; simpl; lia.
    + right. exists i0, e.
      exists (match items (self w) !! key with
              | Some _ => EventUpdate | None => EventSet end).
      repeat split; trivial.
      destruct (items (self w) !! key); auto.
Qed.

Lemma Touch_step key i w r w' :
  Touch key i w = Ok (r, w') ->
  config (self w') = config (self w) /\
  (reads w <= reads w')%nat /\
  ((self w' = self w /\ spawned w' = spawned w) \/
   (exists it e,
      items (self w) !! key = Some it /\
      items (self w') = <[key := Item (Object it) e]> (items (self w)) /\
      lenCurrent (self w') = lenCurrent (self w) /\
      spawned w' = spawned w ++ [Firing EventTouch key (PVal (Object it))])).
Proof.
  unfold Touch. intros H. unfold mbind at 1, M_bind at 1 in H.
  destruct (resolveTime i w) as [[[e [er|]] w1]|] eqn:E; [| |discriminate];
    destruct (readonly_resolveTime _ _ _ _ E) as (Hself & Hsp & Hclk & Hr).
  - munfold. inversion H; subst. unfold config. rewrite Hself. auto.
  - munfold. simpl in H. rewrite Hself in H.
    destruct (items (self w) !! key) as [it|] eqn:Hk; simpl in H;
      inversion H; subst; simpl.
    + split; [reflexivity|]. split; [exact Hr|]. right. exists it, e.
      rewrite Hsp. auto.
    + unfold config. rewrite Hself. auto.
Qed.

Lemma Get_step key w r w' :
  Get key w = Ok (r, w') ->
  self w' = self w /\ (reads w <= reads w')%nat /\
  exists ev val, (ev = EventGet \/ ev = EventMiss) /\
    spawned w' = spawned w ++ [Firing ev key val].
Proof.
  unfold Get. munfold. simpl. intros H.
  destruct (items (self w) !! key) as [it|].
  - destruct (0 <? deadline it); simpl in H;
      [destruct (deadline it <? time.UnixNano (clock w (reads w)))|];
      simpl in H; inversion H; subst; simpl;
      (split; [reflexivity|]); (split; [lia|]); eauto.
  - inversion H; subst; simpl. (split; [reflexivity|]); (split; [lia|]); eauto.
Qed.

(** The removals of a sweep: the entries [kvs] are in the mapping under
    distinct keys. *)
Lemma remove_all_entries (kvs : list (string * item)) event w :
  NoDup kvs.*1 ->
  (forall kv, kv ∈ kvs -> items (self w) !! kv.1 = Some kv.2) ->
  exists w',
    remove_all kvs.*1 event w = Ok (tt, w') /\
    (forall k, items (self w') !! k
               = if decide (k ∈ kvs.*1) then None else items (self w) !! k) /\
    config (self w') = config (self w) /\
    clock w' = clock w /\ reads w' = reads w /\
    spawned w'
    = spawned w ++ map (fun kv => Firing event kv.1 (PVal (Object kv.2))) kvs.
Proof.
  revert w. induction kvs as [|[k0 it0] kvs IH]; intros w Hnd Hin.
  - simpl. munfold. eexists. split; [reflexivity|]. rewrite app_nil_r.
    repeat split.
  - rewrite fmap_cons in Hnd |- *. cbn [fst] in Hnd |- *.
    apply NoDup_cons in Hnd. destruct Hnd as [Hnotin Hnd].
    pose proof (Hin (k0, it0) (list_elem_of_here _ _)) as Hk0. simpl in Hk0.
    cbn [remove_all]. unfold mbind, M_bind.
    rewrite (remove_present _ _ _ _ Hk0).
    match goal with |- context [remove_all _ _ ?w1] => set (wmid := w1) end.
    destruct (IH wmid Hnd) as (w' & Hrun & Hlook & Hcfg & Hclk & Hrd & Hsp).
    { intros [k it] Hkv. simpl.
      rewrite lookup_delete_ne.
      - apply (Hin (k, it)). right. exact Hkv.
      - intros ->. apply Hnotin. apply list_elem_of_fmap.
        exists (k, it). split; [reflexivity|exact Hkv]. }
    exists w'. split; [exact Hrun|]. split; [|split; [|split; [|split]]].
    + intros k. rewrite Hlook.
      change (items (self wmid)) with (delete k0 (items (self w))).
      destruct (decide (k ∈ k0 :: kvs.*1)) as [Hk|Hk];
        destruct (decide (k ∈ kvs.*1)) as [Hk'|Hk']; try reflexivity.
      * apply elem_of_cons in Hk. destruct Hk as [->|Hk]; [|contradiction].
        apply lookup_delete_eq.
      * exfalso. apply Hk. right. exact Hk'.
      * apply lookup_delete_ne. intros ->. apply Hk. left.
    + rewrite Hcfg. reflexivity.
    + rewrite Hclk. reflexivity.
    + rewrite Hrd. reflexivity.
    + rewrite Hsp. subst wmid. cbn [spawned map fst snd].
      rewrite <- app_assoc. reflexivity.
Qed.

Lemma expiredEntries_keys curTime m :
  expiredItems curTime m = (expiredEntries curTime m).*1.
Proof. reflexivity. Qed.

Lemma elem_of_expiredEntries curTime m k it :
  (k, it) ∈ expiredEntries curTime m
  <-> m !! k = Some it /\ is_expired curTime it = true.
Proof.
  unfold expiredEntries. rewrite list_elem_of_filter, elem_of_map_to_list.
  simpl. tauto.
Qed.

Lemma expire_step event w :
  exists w',
    expire event w = Ok (tt, w') /\
    (forall k, items (self w') !! k
               = match items (self w) !! k with
                 | Some it =>
                     if is_expired (time.UnixNano (clock w (reads w))) it
                     then None else Some it
                 | None => None
                 end) /\
    config (self w') = config (self w) /\
    clock w' = clock w /\ reads w' = S (reads w) /\
    spawned w'
    = spawned w ++ map (fun kv => Firing event kv.1 (PVal (Object kv.2)))
                       (expiredEntries (time.UnixNano (clock w (reads w)))
                                       (items (self w))).
Proof.
  unfold expire. unfold mbind, M_bind, time_Now, get_self. simpl.
  set (now := time.UnixNano (clock w (reads w))).
  rewrite expiredEntries_keys.
  match goal with |- context [remove_all _ _ ?w1] => set (w0 := w1) end.
  destruct (remove_all_entries (expiredEntries now (items (self w))) event w0)
    as (w' & Hrun & Hlook & Hcfg & Hclk & Hrd & Hsp).
  { apply (sublist_NoDup _ ((map_to_list (items (self w))).*1)).
    - apply NoDup_fst_map_to_list.
    - apply fmap_sublist. apply sublist_filter. }
  { intros [k it] Hkv. apply elem_of_expiredEntries in Hkv. apply Hkv. }
  exists w'. split; [exact Hrun|]. split; [|auto].
  intros k. rewrite Hlook. simpl.
  destruct (items (self w) !! k) as [it|] eqn:Hk.
  - destruct (is_expired now it) eqn:He.
    + rewrite decide_True; [reflexivity|].
      apply list_elem_of_fmap. exists (k, it). split; [reflexivity|].
      apply elem_of_expiredEntries. auto.
    + rewrite decide_False; [reflexivity|].
      intros Hin. apply list_elem_of_fmap in Hin.
      destruct Hin as ([k' it'] & Heq & Hin). simpl in Heq. subst k'.
      apply elem_of_expiredEntries in Hin. destruct Hin as [Hl He'].
      congruence.
  - destruct (decide _); reflexivity.
Qed.

(** ** The sweep *)


(** ** What every operation keeps *)

Lemma remove_step key event w r w' :
  remove key event w = Ok (r, w') ->
  exists it,
    items (self w) !! key = Some it /\
    r = (Some it, true) /\
    w' = World (set_lenCurrent (len (delete key (items (self w))))
                  (set_items (delete key (items (self w))) (self w)))
               (clock w) (reads w)
               (spawned w ++ [Firing event key (PVal (Object it))]).
Proof.
  intros H. destruct (items (self w) !! key) as [it|] eqn:Hk.
  - rewrite (remove_present _ _ _ _ Hk) in H. inversion H; subst. eauto.
  - rewrite (remove_absent_panics _ _ _ Hk) in H. discriminate H.
Qed.

Lemma Forall_kind_singleton (ev : Event) key val (kinds : list Event) :
  ev ∈ kinds -> Forall (fun f => f_event f ∈ kinds) [Firing ev key val].
Proof. intros H. constructor; [exact H|constructor]. Qed.

Lemma run_op_step o w w' :
  run_op o w = Ok (tt, w') ->
  config (self w') = config (self w) /\
  exists fs,
    spawned w' = spawned w ++ fs /\
    Forall (fun f => f_event f ∈ op_kinds o) fs /\
    (is_OpGet o = true -> length fs = 1%nat).
Proof.
  intros H. destruct o; simpl in H;
    try (unfold mbind at 1, M_bind at 1 in H).
  - destruct (Set_ key i w) as [[r1 w1]|] eqn:E; [|discriminate].
    munfold. inversion H; subst.
    destruct (Set_step _ _ _ _ _ E) as (Hcfg & _ & [[Hs Hsp]|Hacc]).
    + split; [exact Hcfg|]. exists []. rewrite app_nil_r.
      split; [exact Hsp|]. split; [constructor|discriminate].
    + destruct Hacc as (i0 & e & ev & _ & _ & _ & _ & Hev & Hsp).
      split; [exact Hcfg|]. exists [Firing ev key (PVal i0)].
      split; [exact Hsp|]. split; [|discriminate].
      apply Forall_kind_singleton. simpl.
      destruct Hev as [->| ->]; [left|right; left].
  - destruct (Touch key i w) as [[r1 w1]|] eqn:E; [|discriminate].
    munfold. inversion H; subst.
    destruct (Touch_step _ _ _ _ _ E) as (Hcfg & _ & [[Hs Hsp]|Hacc]).
    + split; [exact Hcfg|]. exists []. rewrite app_nil_r.
      split; [exact Hsp|]. split; [constructor|discriminate].
    + destruct Hacc as (it & e & _ & _ & _ & Hsp).
      split; [exact Hcfg|]. eexists.
      split; [exact Hsp|]. split; [|discriminate].
      apply Forall_kind_singleton. left.
  - destruct (Get key w) as [[r1 w1]|] eqn:E; [|discriminate].
    munfold. inversion H; subst.
    destruct (Get_step _ _ _ _ E) as (Hs & _ & ev & val & Hev & Hsp).
    split; [unfold config; rewrite Hs; reflexivity|]. eexists.
    split; [exact Hsp|]. split; [|reflexivity].
    apply Forall_kind_singleton. simpl.
    destruct Hev as [->| ->]; [left|right; left].
  - destruct (Remove key w) as [[r1 w1]|] eqn:E; [|discriminate].
    munfold. inversion H; subst.
    destruct (remove_step _ _ _ _ _ E) as (it & _ & _ & ->).
    split; [reflexivity|]. eexists.
    split; [reflexivity|].
    split; [apply Forall_kind_singleton; left|discriminate].
  - unfold Len in H. munfold. inversion H; subst.
    split; [reflexivity|]. exists []. rewrite app_nil_r.
    split; [reflexivity|]. split; [constructor|discriminate].
  - unfold Clean in H. munfold. inversion H; subst.
    split; [reflexivity|]. eexists.
    split; [reflexivity|].
    split; [apply Forall_kind_singleton; left|discriminate].
  - unfold Flush in H.
    destruct (expire_step EventFlush w) as (w1 & Hrun & _ & Hcfg & _ & _ & Hsp).
    rewrite Hrun in H. inversion H; subst.
    split; [exact Hcfg|]. eexists.
    split; [exact Hsp|]. split; [|discriminate].
    apply Forall_forall. intros f Hf.
    apply list_elem_of_In, in_map_iff in Hf.
    destruct Hf as (kv & <- & _). left.
  - unfold gc_tick in H.
    destruct (expire_step EventExpire w) as (w1 & Hrun & _ & Hcfg & _ & _ & Hsp).
    rewrite Hrun in H. inversion H; subst.
    split; [exact Hcfg|]. eexists.
    split; [exact Hsp|]. split; [|discriminate].
    apply Forall_forall. intros f Hf.
    apply list_elem_of_In, in_map_iff in Hf.
    destruct Hf as (kv & <- & _). left.
  - destruct (remove key event w) as [[r1 w1]|] eqn:E; [|discriminate].
    munfold. inversion H; subst.
    destruct (remove_step _ _ _ _ _ E) as (it & _ & _ & ->).
    split; [reflexivity|]. eexists.
    split; [reflexivity|].
    split; [apply Forall_kind_singleton; left|discriminate].
Qed.

Lemma len_nonneg (m : gmap string item) : 0 <= len m.
Proof. unfold len. lia. Qed.


Lemma run_op_persists key it o w w' :
  items (self w) !! key = Some it -> deadline it <= 0 ->
  leaves key o = true ->
  run_op o w = Ok (tt, w') ->
  items (self w') !! key = Some it.
Proof.
  intros Hit Hd Hl H.
  destruct o; simpl in H, Hl; try (apply bool_decide_eq_true in Hl);
    try (unfold mbind at 1, M_bind at 1 in H).
  - destruct (Set_ key0 i w) as [[r1 w1]|] eqn:E; [|discriminate].
    munfold. inversion H; subst.
    destruct (Set_step _ _ _ _ _ E) as (_ & _ & [[Hs _]|Hacc]).
    + rewrite Hs. exact Hit.
    + destruct Hacc as (i0 & e & ev & _ & Hins & _).
      rewrite Hins, lookup_insert_ne by exact Hl. exact Hit.
  - destruct (Touch key0 i w) as [[r1 w1]|] eqn:E; [|discriminate].
    munfold. inversion H; subst.
    destruct (Touch_step _ _ _ _ _ E) as (_ & _ & [[Hs _]|Hacc]).
    + rewrite Hs. exact Hit.
    + destruct Hacc as (it' & e & _ & Hins & _).
      rewrite Hins, lookup_insert_ne by exact Hl. exact Hit.
  - destruct (Get key0 w) as [[r1 w1]|] eqn:E; [|discriminate].
    munfold. inversion H; subst.
    destruct (Get_step _ _ _ _ E) as (Hs & _). rewrite Hs. exact Hit.
  - destruct (Remove key0 w) as [[r1 w1]|] eqn:E; [|discriminate].
    munfold. inversion H; subst.
    destruct (remove_step _ _ _ _ _ E) as (it' & _ & _ & ->). simpl.
    rewrite lookup_delete_ne by exact Hl. exact Hit.
  - unfold Len in H. munfold. inversion H; subst. exact Hit.
  - discriminate Hl.
  - unfold Flush in H.
    destruct (expire_step EventFlush w) as (w1 & Hrun & Hlook & _).
    rewrite Hrun in H. inversion H; subst. rewrite Hlook, Hit.
    unfold is_expired. apply Z.ltb_ge in Hd. rewrite Hd. reflexivity.
  - unfold gc_tick in H.
    destruct (expire_step EventExpire w) as (w1 & Hrun & Hlook & _).
    rewrite Hrun in H. inversion H; subst. rewrite Hlook, Hit.
    unfold is_expired. apply Z.ltb_ge in Hd. rewrite Hd. reflexivity.
  - destruct (remove key0 event w) as [[r1 w1]|] eqn:E; [|discriminate].
    munfold. inversion H; subst.
    destruct (remove_step _ _ _ _ _ E) as (it' & _ & _ & ->). simpl.
    rewrite lookup_delete_ne by exact Hl. exact Hit.
Qed.

(** ** Executions: configuration, capacity, persistence *)

Lemma run_ops_config os w w' :
  run_ops os w = Ok (tt, w') -> config (self w') = config (self w).
Proof.
  revert w. induction os as [|o os IH]; intros w H; simpl in H.
  - munfold. inversion H; subst. reflexivity.
  - unfold mbind, M_bind in H.
    destruct (run_op o w) as [[[] w1]|] eqn:E; [|discriminate].
    rewrite (IH _ H). apply (run_op_step _ _ _ E).
Qed.

(** No operation of the store changes what the options of [New] have set:
    after any sequence of calls and ticks that return, the default expiration,
    the sweep period, the capacity limit, the chain of observers and the
    sweeper are the ones the store started with. *)
Theorem operations_keep_configuration os w w' :
  run_ops os w = Ok (tt, w') ->
  expirePeriod (self w') = expirePeriod (self w) /\
  gcPeriod (self w') = gcPeriod (self w) /\
  lenLimit (self w') = lenLimit (self w) /\
  observers (self w') = observers (self w) /\
  sweeper (self w') = sweeper (self w).
Proof.
  intros H. pose proof (run_ops_config _ _ _ H) as Hcfg.
  unfold config in Hcfg. inversion Hcfg. auto.
Qed.

Lemma operations_keep_configuration_witness :
  expirePeriod (self demo_final) = expirePeriod (New demo_opts) /\
  gcPeriod (self demo_final) = gcPeriod (New demo_opts) /\
  lenLimit (self demo_final) = lenLimit (New demo_opts) /\
  observers (self demo_final) = observers (New demo_opts) /\
  sweeper (self demo_final) = sweeper (New demo_opts).
Proof.
  apply (operations_keep_configuration demo_ops
           (boot (New demo_opts) demo_clock) demo_final).
  vm_compute. reflexivity.
Defined.




Lemma run_ops_persists key it os w w' :
  items (self w) !! key = Some it -> deadline it <= 0 ->
  forallb (leaves key) os = true ->
  run_ops os w = Ok (tt, w') ->
  items (self w') !! key = Some it.
Proof.
  revert w. induction os as [|o os IH]; intros w Hit Hd Hl H; simpl in H, Hl.
  - munfold. inversion H; subst. exact Hit.
  - apply andb_true_iff in Hl. destruct Hl as [Hl1 Hl2].
    unfold mbind, M_bind in H.
    destruct (run_op o w) as [[[] w1]|] eqn:E; [|discriminate].
    apply (IH w1); trivial.
    exact (run_op_persists _ _ _ _ _ Hit Hd Hl1 E).
Qed.

(** An entry without positive deadline (stored with [NoExpire], or under a
    default of zero or [NoExpire]) stays as it is through any sequence of
    operations that return, sweeps included, as long as none of them is
    [Clean] or a [Set], [Touch] or removal of its key; [Get] then still
    returns its object. *)
Theorem never_expiring_entry_persists key it os w w' :
  items (self w) !! key = Some it ->
  deadline it <= 0 ->
  forallb (leaves key) os = true ->
  run_ops os w = Ok (tt, w') ->
  items (self w') !! key = Some it /\
  exists w2, Get key w' = Ok ((Object it, true), w2).
Proof.
  intros Hit Hd Hl H.
  pose proof (run_ops_persists _ _ _ _ _ Hit Hd Hl H) as Hit'.
  split; [exact Hit'|].
  unfold Get. munfold. rewrite Hit'.
  apply Z.ltb_ge in Hd. rewrite Hd. simpl. eauto.
Qed.

Lemma never_expiring_entry_persists_witness :
  items (self two_never_final) !! "key-1"%string = Some (Item (VString "x") 0) /\
  exists w2, Get "key-1" two_never_final = Ok ((VString "x", true), w2).
Proof.
  apply (never_expiring_entry_persists "key-1" (Item (VString "x") 0)
           two_never_ops two_never).
  - reflexivity.
  - simpl. lia.
  - reflexivity.
  - vm_compute. reflexivity.
Defined.

(** ** The events an execution fires *)

Lemma count_event_app ev fs1 fs2 :
  count_event ev (fs1 ++ fs2) = (count_event ev fs1 + count_event ev fs2)%nat.
Proof. unfold count_event. rewrite List.filter_app, length_app. reflexivity. Qed.

Lemma count_event_other ev (kinds : list Event) fs :
  Forall (fun f => f_event f ∈ kinds) fs -> ev ∉ kinds ->
  count_event ev fs = 0%nat.
Proof.
  intros Hall Hnot. induction Hall as [|f fs Hf _ IH]; [reflexivity|].
  unfold count_event in *. simpl.
  destruct (f_event f =? ev) eqn:E; [|exact IH].
  apply Z.eqb_eq in E. subst ev. contradiction.
Qed.

Lemma public_op_kinds o :
  public_op o = true -> forall ev, ev ∈ op_kinds o -> ev ∈ store_kinds.
Proof.
  intros Hp ev Hev. unfold store_kinds.
  destruct o; simpl in *; try discriminate Hp;
    repeat (apply elem_of_cons in Hev; destruct Hev as [->|Hev]);
    try (inversion Hev; fail);
    repeat (first [left; reflexivity | right]); left.
Qed.

Lemma run_op_fired o w w' :
  public_op o = true ->
  run_op o w = Ok (tt, w') ->
  exists fs,
    spawned w' = spawned w ++ fs /\
    Forall (fun f => f_event f ∈ store_kinds) fs /\
    (count_event EventGet fs + count_event EventMiss fs
     = if is_OpGet o then 1 else 0)%nat.
Proof.
  intros Hp H. destruct (run_op_step _ _ _ H) as (_ & fs & Hsp & Hk & Hlen).
  exists fs. split; [exact Hsp|]. split.
  - eapply Forall_impl; [exact Hk|]. intros f Hf.
    exact (public_op_kinds _ Hp _ Hf).
  - destruct o; simpl in Hp, Hk, Hlen |- *; try discriminate Hp;
      try (rewrite (count_event_other EventGet _ _ Hk),
                   (count_event_other EventMiss _ _ Hk);
           [reflexivity| |];
           intros Hin;
           repeat (apply elem_of_cons in Hin;
                   destruct Hin as [Hin|Hin]; [discriminate Hin|]);
           inversion Hin).
    specialize (Hlen eq_refl).
    destruct fs as [|f [|? ?]]; try discriminate Hlen.
    inversion Hk as [|? ? Hf _]; subst.
    unfold count_event. simpl.
    apply elem_of_cons in Hf. destruct Hf as [->|Hf]; [reflexivity|].
    apply elem_of_cons in Hf. destruct Hf as [->|Hf]; [reflexivity|].
    inversion Hf.
Qed.

Lemma run_ops_fired os w w' :
  forallb public_op os = true ->
  run_ops os w = Ok (tt, w') ->
  exists fs,
    spawned w' = spawned w ++ fs /\
    Forall (fun f => f_event f ∈ store_kinds) fs /\
    (count_event EventGet fs + count_event EventMiss fs
     = length (List.filter is_OpGet os))%nat.
Proof.
  revert w. induction os as [|o os IH]; intros w Hp H; simpl in H, Hp.
  - munfold. inversion H; subst. exists []. rewrite app_nil_r.
    split; [reflexivity|]. split; [constructor|reflexivity].
  - apply andb_true_iff in Hp. destruct Hp as [Hp1 Hp2].
    unfold mbind, M_bind in H.
    destruct (run_op o w) as [[[] w1]|] eqn:E; [|discriminate].
    destruct (run_op_fired _ _ _ Hp1 E) as (fs1 & Hsp1 & Hk1 & Hc1).
    destruct (IH w1 Hp2 H) as (fs2 & Hsp2 & Hk2 & Hc2).
    exists (fs1 ++ fs2). split; [|split].
    + rewrite Hsp2, Hsp1, app_assoc. reflexivity.
    + apply Forall_app. auto.
    + rewrite !count_event_app. simpl.
      destruct (is_OpGet o); simpl; lia.
Qed.

(** The calls of the public interface and the ticks of the sweeper fire
    events of nine kinds only: an execution that returns never fires
    [EventError] or the wildcard [EventAny], and it fires exactly one
    [EventGet] or [EventMiss] for each call of [Get]. *)
Theorem store_fires_only_its_kinds os w w' :
  forallb public_op os = true ->
  run_ops os w = Ok (tt, w') ->
  exists fs,
    spawned w' = spawned w ++ fs /\
    Forall (fun f => f_event f ∈ store_kinds) fs /\
    count_event EventError fs = 0%nat /\
    count_event EventAny fs = 0%nat /\
    (count_event EventGet fs + count_event EventMiss fs
     = length (List.filter is_OpGet os))%nat.
Proof.
  intros Hp H. destruct (run_ops_fired _ _ _ Hp H) as (fs & Hsp & Hk & Hc).
  exists fs. split; [exact Hsp|]. split; [exact Hk|].
  split; [|split; [|exact Hc]];
    apply (count_event_other _ _ _ Hk); unfold store_kinds; intros Hin;
    repeat (apply elem_of_cons in Hin;
            destruct Hin as [Hin|Hin]; [discriminate Hin|]);
    inversion Hin.
Qed.

Lemma store_fires_only_its_kinds_witness :
  exists fs,
    spawned demo_final = [] ++ fs /\
    Forall (fun f => f_event f ∈ store_kinds) fs /\
    count_event EventError fs = 0%nat /\
    count_event EventAny fs = 0%nat /\
    (count_event EventGet fs + count_event EventMiss fs
     = length (List.filter is_OpGet demo_ops))%nat.
Proof.
  apply (store_fires_only_its_kinds demo_ops (boot (New demo_opts) demo_clock)
           demo_final).
  - reflexivity.
  - vm_compute. reflexivity.
Defined.

(** ** The statistics sink *)

Lemma count_event_snoc ev fs f :
  count_event ev (fs ++ [f])
  = (count_event ev fs + if (f_event f =? ev)%Z then 1 else 0)%nat.
Proof.
  rewrite count_event_app. unfold count_event. simpl.
  destruct (f_event f =? ev); reflexivity.
Qed.

Lemma Add1_count (n : nat) :
  Add1 (Z.of_nat n mod 2 ^ 64) = Z.of_nat (n + 1) mod 2 ^ 64.
Proof.
  unfold Add1. rewrite Zplus_mod_idemp_l. f_equal. lia.
Qed.

Lemma Stats_feed_counters fs :
  counters (Stats_feed fs Stats_zero)
  = map (fun ev => Z.of_nat (count_event ev fs) mod 2 ^ 64) counted_kinds.
Proof.
  induction fs as [|f fs IH] using rev_ind; [reflexivity|].
  unfold Stats_feed in *. rewrite fold_left_app. simpl fold_left.
  set (i := fold_left _ fs Stats_zero) in *.
  unfold counters, counted_kinds in *. simpl map in *.
  rewrite !count_event_snoc.
  injection IH as Hg Hm Hs Hu Ht He Hr Hx Hf.
  unfold Stats_EventHandler.
  repeat match goal with
  | |- context [f_event f =? ?k] =>
      let E := fresh "E" in
      destruct (f_event f =? k) eqn:E;
      [apply Z.eqb_eq in E; rewrite E in *; simpl;
       rewrite ?Nat.add_0_r, <- ?Add1_count; congruence|]
  end.
  simpl. rewrite !Nat.add_0_r. congruence.
Qed.

(** A [Stats] that starts at zero and is called for a list of events holds,
    in each counter, the number of events of the counter's kind, modulo 2^64;
    events of kind [EventClean], [EventAny] or of no kind of the package are
    counted nowhere. *)
Theorem Stats_counts_events_by_kind fs :
  let s := Stats_feed fs Stats_zero in
  let count ev := Z.of_nat (count_event ev fs) mod 2 ^ 64 in
  gets s = count EventGet /\ misses s = count EventMiss /\
  sets s = count EventSet /\ updates s = count EventUpdate /\
  touches s = count EventTouch /\ errors s = count EventError /\
  removes s = count EventRemove /\ expires s = count EventExpire /\
  flushes s = count EventFlush.
Proof.
  intros s count. pose proof (Stats_feed_counters fs) as H.
  unfold counters, counted_kinds in H. simpl map in H.
  injection H as Hg Hm Hs Hu Ht He Hr Hx Hf.
  unfold s, count. repeat split; assumption.
Qed.

Lemma delivered_wildcard id fs :
  delivered (Some (EventHandler [EventAny] id None)) fs
  = map (fun f => Call id (f_event f) (f_key f) (f_val f)) fs.
Proof.
  unfold delivered. induction fs as [|f fs IH]; [reflexivity|].
  cbn [flat_map map]. rewrite IH. reflexivity.
Qed.

Lemma Stats_consume_own id fs i :
  Stats_consume id (map (fun f => Call id (f_event f) (f_key f) (f_val f)) fs) i
  = Stats_feed fs i.
Proof.
  unfold Stats_consume, Stats_feed. revert i.
  induction fs as [|f fs IH]; intros i; [reflexivity|].
  simpl. rewrite Nat.eqb_refl. apply IH.
Qed.

(** A [Stats] registered alone, for every kind, on a store that has fired
    nothing yet: after any sequence of public calls and ticks that return, and
    once every callback has run, its hits and misses add up to the number of
    calls of [Get] (modulo 2^64), and its error counter is still zero. *)
Theorem Stats_hits_and_misses_are_the_Gets id os w w' :
  observers (self w) = Some (EventHandler [EventAny] id None) ->
  spawned w = [] ->
  forallb public_op os = true ->
  run_ops os w = Ok (tt, w') ->
  let s := Stats_consume id (delivered (observers (self w')) (spawned w'))
                         Stats_zero in
  (gets s + misses s) mod 2 ^ 64
  = Z.of_nat (length (List.filter is_OpGet os)) mod 2 ^ 64 /\
  errors s = 0.
Proof.
  intros Hobs Hnone Hp H s.
  destruct (run_ops_fired _ _ _ Hp H) as (fs & Hsp & Hk & Hc).
  pose proof (run_ops_config _ _ _ H) as Hcfg. unfold config in Hcfg.
  assert (Hobs' : observers (self w') = Some (EventHandler [EventAny] id None))
    by congruence.
  rewrite Hnone in Hsp. simpl in Hsp.
  assert (Hs : s = Stats_feed fs Stats_zero).
  { unfold s. rewrite Hobs', Hsp, delivered_wildcard. apply Stats_consume_own. }
  pose proof (Stats_feed_counters fs) as Hcnt. rewrite <- Hs in Hcnt.
  unfold counters, counted_kinds in Hcnt. simpl map in Hcnt.
  injection Hcnt as Hg Hm _ _ _ He _ _ _.
  split.
  - rewrite Hg, Hm, <- Zplus_mod, <- Hc. f_equal. lia.
  - rewrite He. rewrite (count_event_other EventError _ _ Hk); [reflexivity|].
    unfold store_kinds. intros Hin.
    repeat (apply elem_of_cons in Hin;
            destruct Hin as [Hin|Hin]; [discriminate Hin|]).
    inversion Hin.
Qed.

Lemma Stats_hits_and_misses_are_the_Gets_witness :
  let s := Stats_consume 1%nat
             (delivered (observers (self demo_final)) (spawned demo_final))
             Stats_zero in
  (gets s + misses s) mod 2 ^ 64
  = Z.of_nat (length (List.filter is_OpGet demo_ops)) mod 2 ^ 64 /\
  errors s = 0.
Proof.
  apply (Stats_hits_and_misses_are_the_Gets 1%nat demo_ops
           (boot (New demo_opts) demo_clock) demo_final).
  - reflexivity.
  - reflexivity.
  - reflexivity.
  - vm_compute. reflexivity.
Defined.

(** ** Names of events *)

Lemma Event_String_cases e :
  ((e ∈ named_kinds) /\ Event_String e <> "[UNDEFINED]"%string /\
   forall e', Event_String e = Event_String e' -> e = e') \/
  ((e ∉ named_kinds) /\ Event_String e = "[UNDEFINED]"%string).
Proof.
  unfold Event_String, named_kinds.
  repeat match goal with
  | |- context [e =? ?k] =>
      let E := fresh "E" in
      destruct (e =? k) eqn:E;
      [apply Z.eqb_eq in E; subst e; left;
       split; [repeat (first [left; reflexivity | right]) |
       split; [discriminate|];
       intros e'; unfold Event_String;
       repeat match goal with
       | |- context [e' =? ?k'] =>
           let E' := fresh "E" in
           destruct (e' =? k') eqn:E';
           [apply Z.eqb_eq in E'; subst e';
            first [reflexivity | discriminate]|]
       end; discriminate]|]
  end.
  right. split; [|reflexivity].
  intros Hin.
  repeat (apply elem_of_cons in Hin;
          destruct Hin as [Hin|Hin];
          [subst e; discriminate|]).
  inversion Hin.
Qed.

(** [String] gives a kind the text ["[UNDEFINED]"] exactly when the kind is
    not one of the nine it names, and [EventError] and [EventClean] are not
    among them; two kinds print alike only if they are the same kind or both
    print as undefined. *)
Theorem Event_String_names e :
  (Event_String e = "[UNDEFINED]"%string <-> e ∉ named_kinds) /\
  Event_String EventClean = "[UNDEFINED]"%string /\
  Event_String EventError = "[UNDEFINED]"%string /\
  forall e', Event_String e = Event_String e' ->
             e = e' \/ Event_String e = "[UNDEFINED]"%string.
Proof.
  destruct (Event_String_cases e) as [(Hin & Hne & Hinj)|[Hnot Hun]].
  - split; [split; [intros H; contradiction|intros H; contradiction]|].
    split; [reflexivity|]. split; [reflexivity|].
    intros e' He. left. apply Hinj. exact He.
  - split; [split; auto|]. split; [reflexivity|]. split; [reflexivity|].
    intros e' _. right. exact Hun.
Qed.

(** ** Construction *)

Lemma sound_option_keeps opt c :
  is_sound_option opt ->
  well_configured c /\ sweeper c = None ->
  well_configured (opt c) /\ sweeper (opt c) = None.
Proof.
  intros Hopt [(Hl & He & Hg) Hs]. unfold well_configured.
  destruct Hopt as [limit|dur|dur| |src (Hl' & He' & Hg')|h evs]; simpl.
  - unfold LenLimit. destruct (NoLenLimit <=? limit) eqn:E; simpl; auto.
    apply Z.leb_le in E. unfold NoLenLimit in E. auto.
  - repeat split; auto. destruct (dur <? 0) eqn:E.
    + unfold NoExpire. lia.
    + apply Z.ltb_ge in E. lia.
  - repeat split; auto. destruct (dur <? 10 * time.Millisecond) eqn:E.
    + vm_compute. discriminate.
    + apply Z.ltb_ge in E. exact E.
  - auto.
  - auto.
  - destruct h as [hd|], evs as [|e evs]; simpl; auto.
Qed.

(** A store made by [New] from the package's options, the stores given to
    [CloneFrom] being themselves well configured, has a capacity limit that is
    not negative, a default expiration that is [NoExpire] or not negative, a
    sweep period of at least 10ms, and its sweeper running at that period. *)
Theorem New_is_well_configured opts :
  Forall is_sound_option opts ->
  0 <= lenLimit (New opts) /\
  -1 <= expirePeriod (New opts) /\
  10 * time.Millisecond <= gcPeriod (New opts) /\
  sweeper (New opts) = Some (Gc (gcPeriod (New opts))).
Proof.
  intros Hopts. unfold New.
  assert (H : forall c, well_configured c /\ sweeper c = None ->
            well_configured (fold_left (fun c opt => opt c) opts c) /\
            sweeper (fold_left (fun c opt => opt c) opts c) = None).
  { induction Hopts as [|opt opts Hopt _ IH]; intros c Hc; simpl; [exact Hc|].
    apply IH. exact (sound_option_keeps _ _ Hopt Hc). }
  destruct (H (Stash DefaultExpire DefaultCgPeriod NoLenLimit 0 ∅ None None))
    as [(Hl & He & Hg) Hs].
  { split; [|reflexivity]. unfold well_configured. simpl.
    repeat split; vm_compute; discriminate. }
  set (c := fold_left _ opts _) in *.
  assert (Hpos : (0 <? gcPeriod c) = true).
  { apply Z.ltb_lt.
    assert (0 < 10 * time.Millisecond) by (vm_compute; reflexivity). lia. }
  rewrite Hpos. simpl. auto.
Qed.

Lemma New_is_well_configured_witness :
  0 <= lenLimit (New demo_opts) /\
  -1 <= expirePeriod (New demo_opts) /\
  10 * time.Millisecond <= gcPeriod (New demo_opts) /\
  sweeper (New demo_opts) = Some (Gc (gcPeriod (New demo_opts))).
Proof.
  apply (New_is_well_configured demo_opts). repeat constructor.
Defined.

Lemma clone_items (src c0 : gmap string item) :
  map_fold (fun k v acc => <[k := Item (Object v) (deadline v)]> acc) c0 src
  = src ∪ c0.
Proof.
  apply (map_fold_weak_ind (fun r m => r = m ∪ c0)).
  - rewrite (left_id_L ∅ (∪)). reflexivity.
  - intros k [o d] m r _ ->. simpl. rewrite insert_union_l. reflexivity.
Qed.

(** [CloneFrom] of a store gives the new store every entry of the source,
    over the entries it may already hold, a live-count equal to the size of
    the resulting mapping, and the source's default expiration, sweep period
    and capacity limit; the observers are not taken from the source. A store
    made by [New(CloneFrom(src))] has exactly the entries of [src] and no
    observer. *)
Theorem CloneFrom_copies src c :
  items (CloneFrom (Some src) c) = items src ∪ items c /\
  lenCurrent (CloneFrom (Some src) c) = len (items src ∪ items c) /\
  expirePeriod (CloneFrom (Some src) c) = expirePeriod src /\
  gcPeriod (CloneFrom (Some src) c) = gcPeriod src /\
  lenLimit (CloneFrom (Some src) c) = lenLimit src /\
  observers (CloneFrom (Some src) c) = observers c /\
  items (New [CloneFrom (Some src)]) = items src /\
  lenCurrent (New [CloneFrom (Some src)]) = len (items src) /\
  observers (New [CloneFrom (Some src)]) = None.
Proof.
  assert (Hit : items (CloneFrom (Some src) c) = items src ∪ items c).
  { simpl. apply clone_items. }
  assert (Hnew : items (New [CloneFrom (Some src)]) = items src).
  { unfold New. cbn [fold_left].
    match goal with |- items (if ?b then _ else _) = _ => destruct b end;
      simpl; rewrite clone_items; apply (right_id_L ∅ (∪)). }
  split; [exact Hit|]. split; [simpl; rewrite clone_items; reflexivity|].
  split; [reflexivity|]. split; [reflexivity|]. split; [reflexivity|].
  split; [reflexivity|]. split; [exact Hnew|]. split.
  - unfold New. cbn [fold_left].
    match goal with |- lenCurrent (if ?b then _ else _) = _ => destruct b end;
      simpl; rewrite clone_items, (right_id_L ∅ (∪)); reflexivity.
  - unfold New. cbn [fold_left].
    match goal with |- observers (if ?b then _ else _) = _ => destruct b end;
      reflexivity.
Qed.

Lemma registrations_chain regs c :
  map (fun l => (handler l, events l))
      (chain (observers (fold_left (fun c opt => opt c)
                           (map (fun r => OnEvent r.1 r.2) regs) c)))
  = rev (omap registered regs)
    ++ map (fun l => (handler l, events l)) (chain (observers c)).
Proof.
  revert c. induction regs as [|[h evs] regs IH]; intros c; [reflexivity|].
  cbn [map fold_left fst snd]. rewrite IH, OnEvent_chain.
  destruct h as [hd|], evs as [|e es]; cbn [omap list_omap registered];
    try reflexivity.
  cbn [rev map handler events]. rewrite <- app_assoc. reflexivity.
Qed.

(** The observers of a store are the registrations given to [New] that
    have a callback and at least one kind, the last registered first in the
    chain; a registration with a nil callback or without kinds leaves no
    link. *)
Theorem New_chains_registrations regs :
  map (fun l => (handler l, events l))
      (chain (observers (New (map (fun r => OnEvent r.1 r.2) regs))))
  = rev (omap registered regs).
Proof.
  unfold New.
  match goal with
  | |- context [if ?b then startGc ?c else ?c] =>
      replace (observers (if b then startGc c else c)) with (observers c)
        by (destruct b; reflexivity)
  end.
  rewrite registrations_chain. simpl. apply app_nil_r.
Qed.

(** ** Specifiers that mean the default, and specifiers that mean never *)

Lemma toTime_defaulting spec w :
  defaulting spec = true -> toTime spec w = Ok (DefaultExpire, w).
Proof.
  intros H. destruct spec as [| | | | | | | | | | | | |[t|]| |];
    simpl in H; try discriminate H; simpl;
    unfold toTime_Duration, toTime_Time; munfold;
    try (apply Z.eqb_eq in H); try rewrite H; reflexivity.
Qed.

(** A specifier that is the zero duration, zero seconds, the instant of the
    Unix epoch, a nil [*time.Time], or of a type the resolver does not know,
    is resolved as if there were none: [Set] and [Touch] do with it what they
    do without specifier, that is, they apply the store's default. *)
Theorem defaulting_specifier_is_no_specifier key v spec w :
  defaulting spec = true ->
  resolveTime [v; spec] w = resolveTime [v] w /\
  Set_ key [v; spec] w = Set_ key [v] w /\
  Touch key [v; spec] w = Touch key [v] w.
Proof.
  intros H.
  assert (Hres : resolveTime [v; spec] w = resolveTime [v] w).
  { unfold resolveTime. unfold mbind at 1 4, M_bind at 1 4.
    rewrite (toTime_defaulting _ _ H). reflexivity. }
  split; [exact Hres|]. split.
  - unfold Set_. destruct (is_nil v); [reflexivity|].
    unfold mbind, M_bind, get_self.
    destruct ((0 <? lenLimit (self w)) && (lenLimit (self w) <=? lenCurrent (self w)));
      [reflexivity|].
    rewrite Hres. reflexivity.
  - unfold Touch. unfold mbind, M_bind. rewrite Hres. reflexivity.
Qed.

Lemma defaulting_specifier_is_no_specifier_witness :
  resolveTime [VString "v"; VTime 0] full_world
  = resolveTime [VString "v"] full_world /\
  Set_ "k" [VString "v"; VTime 0] full_world = Set_ "k" [VString "v"] full_world /\
  Touch "k" [VString "v"; VTime 0] full_world = Touch "k" [VString "v"] full_world.
Proof.
  apply (defaulting_specifier_is_no_specifier "k" (VString "v") (VTime 0)
           full_world).
  reflexivity.
Defined.

Lemma toTime_never spec w :
  never_spec spec = true -> exists e, e < 0 /\ toTime spec w = Ok (e, w).
Proof.
  intros H. destruct spec as [| | | | | | | | | | | | |[t|]| |];
    simpl in H; try discriminate H; simpl;
    unfold toTime_Duration, toTime_Time; munfold.
  - exists NoExpire. split; [reflexivity|reflexivity].
  - apply Z.eqb_eq in H. subst d. exists NoExpire.
    split; reflexivity.
  - apply Z.ltb_lt in H. eauto.
  - apply Z.ltb_lt in H. eauto.
Qed.

(** With nil, [NoExpire] or an instant before the Unix epoch as specifier,
    [Set] of a non-nil object on a store whose limit is not reached is
    accepted without a look at the clock, whatever the store's default, and
    the entry gets a negative deadline: [Get] finds it whatever the time. An
    instant before 1970 is thus never rejected as past. *)
Theorem never_specifier_stores_for_good key v spec w :
  never_spec spec = true ->
  is_nil v = false ->
  (0 <? lenLimit (self w)) && (lenLimit (self w) <=? lenCurrent (self w)) = false ->
  exists e w',
    e < 0 /\
    Set_ key [v; spec] w = Ok (None, w') /\
    items (self w') !! key = Some (Item v e) /\
    reads w' = reads w /\
    exists w2, Get key w' = Ok ((v, true), w2).
Proof.
  intros Hnever Hnil Hlim.
  destruct (toTime_never _ w Hnever) as (e & Hneg & HtT).
  assert (Hres : resolveTime [v; spec] w = Ok ((e, None), w)).
  { unfold resolveTime. unfold mbind at 1, M_bind at 1. rewrite HtT.
    unfold mbind at 1, M_bind at 1.
    assert (He0 : (e =? DefaultExpire) = false)
      by (apply Z.eqb_neq; unfold DefaultExpire; lia).
    rewrite He0. munfold.
    assert (Hpos : (0 <? e) = false) by (apply Z.ltb_ge; lia).
    rewrite Hpos. reflexivity. }
  pose proof (Set_accepted key v [spec] w e w Hnil Hlim Hres) as HSet.
  simpl in HSet. eexists e, _. split; [exact Hneg|].
  split; [exact HSet|].
  destruct (items (self w) !! key); simpl.
  - split; [apply lookup_insert_eq|]. split; [reflexivity|].
    unfold Get. munfold. simpl. rewrite lookup_insert_eq. simpl.
    assert (Hpos : (0 <? e) = false) by (apply Z.ltb_ge; lia).
    rewrite Hpos. simpl. eauto.
  - split; [apply lookup_insert_eq|]. split; [reflexivity|].
    unfold Get. munfold. simpl. rewrite lookup_insert_eq. simpl.
    assert (Hpos : (0 <? e) = false) by (apply Z.ltb_ge; lia).
    rewrite Hpos. simpl. eauto.
Qed.

Lemma never_specifier_stores_for_good_witness :
  exists e w',
    e < 0 /\
    Set_ "k" [VString "v"; VTime (-5)] (boot (New []) (fun _ => 1000))
    = Ok (None, w') /\
    items (self w') !! "k"%string = Some (Item (VString "v") e) /\
    reads w' = reads (boot (New []) (fun _ => 1000)) /\
    exists w2, Get "k" w' = Ok ((VString "v", true), w2).
Proof.
  apply (never_specifier_stores_for_good "k" (VString "v") (VTime (-5))
           (boot (New []) (fun _ => 1000))).
  - reflexivity.
  - reflexivity.
  - reflexivity.
Defined.

(** ** The summary of the statistics *)

(** [String] leaves out the counters that are zero: the summary is the
    empty string exactly when no counter is positive. *)
Theorem Stats_String_empty_iff (FormatUint10 : Z -> string) i :
  Stats_String FormatUint10 i = EmptyString
  <-> Forall (fun v => v <= 0) (counters i).
Proof.
  unfold Stats_String, part, counters.
  repeat match goal with
  | |- context [0 <? ?v] =>
      let E := fresh "E" in
      destruct (0 <? v) eqn:E;
      [apply Z.ltb_lt in E; split;
       [simpl; discriminate|
        intros H; exfalso;
        repeat match goal with
        | H : Forall _ (_ :: _) |- _ => inversion H; clear H; subst
        end; lia]
      |apply Z.ltb_ge in E; cbn [app]]
  end.
  split; [|reflexivity]. intros _. repeat constructor; assumption.
Qed.

(** ** From registration to delivery *)

Lemma fire_chain h event key val :
  fire h event key val
  = rev (map (fun l => Call (handler l) event key val)
             (filter (wants event) (chain h))).
Proof. destruct h as [h|]; [apply fire_link_wanted|reflexivity]. Qed.

Lemma wanted_links_registrations event key val (ls : list eventHandler) :
  map (fun l => Call (handler l) event key val) (filter (wants event) ls)
  = map (fun p : OnEventHandler * list Event => Call p.1 event key val)
        (filter (fun p : OnEventHandler * list Event =>
                   event ∈ p.2 \/ EventAny ∈ p.2)
                (map (fun l => (handler l, events l)) ls)).
Proof.
  induction ls as [|l ls IH]; [reflexivity|].
  cbn [map]. rewrite !filter_cons.
  destruct (decide (wants event l)) as [Hw|Hw];
    destruct (decide (event ∈ (handler l, events l).2
                      \/ EventAny ∈ (handler l, events l).2)) as [Hp|Hp];
    try (exfalso; apply Hp; exact Hw); try (exfalso; apply Hw; exact Hp).
  - cbn [map fst]. rewrite IH. reflexivity.
  - exact IH.
Qed.

(** An event fired on a store made by [New] from registrations launches,
    up to the order goroutines start in, one callback for every registration
    that has a callback and whose kinds hold the event's kind or [EventAny]
    (a registration repeated is called once for each time it was made), and no
    other. *)
Theorem registered_observers_are_called regs event key val :
  fire (observers (New (map (fun r => OnEvent r.1 r.2) regs))) event key val
  ≡ₚ map (fun p : OnEventHandler * list Event => Call p.1 event key val)
         (filter (fun p : OnEventHandler * list Event =>
                    event ∈ p.2 \/ EventAny ∈ p.2)
                 (omap registered regs)).
Proof.
  rewrite fire_chain, wanted_links_registrations.
  assert (Hch : map (fun l => (handler l, events l))
                    (chain (observers (New (map (fun r => OnEvent r.1 r.2) regs))))
                = rev (omap registered regs)).
  { unfold New.
    match goal with
    | |- context [if ?b then startGc ?c else ?c] =>
        replace (observers (if b then startGc c else c)) with (observers c)
          by (destruct b; reflexivity)
    end.
    rewrite registrations_chain. simpl. apply app_nil_r. }
  rewrite Hch.
  etransitivity; [symmetry; apply Permutation_rev|].
  apply Permutation_map.
  assert (Hrev : rev (omap registered regs) ≡ₚ omap registered regs)
    by (symmetry; apply Permutation_rev).
  rewrite Hrev. reflexivity.
Qed.
